(** * GaussianBayesNet: the solve and query engine of a chordal Gaussian
      Bayes network (gtsam/linear/GaussianBayesNet.cpp)

    The C++ [double] is idealised as a real number of the Standard Library;
    a [Vector] is a list of reals and a [Matrix] is a list of rows.  The
    loop of the log-determinant is also given on IEEE doubles, where the
    rounding of its additions and of the logarithm is visible. *)

From Stdlib Require Import Reals Lra.
From Stdlib Require PrimFloat.
From stdpp Require Import gmap list fin_maps.

(** ** Dense vectors and blocks *)

(** A [Vector] is the list of its entries and a [Matrix] the list of its
    rows. *)
Abbreviation Vector := (list R) (only parsing).
Abbreviation Matrix := (list (list R)) (only parsing).

Module Dense.

Local Open Scope R_scope.

Fixpoint dot (u v : Vector) : R :=
  match u, v with
  | a :: u', b :: v' => a * b + dot u' v'
  | _, _ => 0
  end.

(** [sum] of an Eigen vector expression. *)
Definition sum (v : Vector) : R := foldr Rplus 0 v.

(** Coefficient-wise [unaryExpr]. *)
Definition unaryExpr (f : R -> R) (v : Vector) : Vector := map f v.

Fixpoint vsub (u v : Vector) : Vector :=
  match u, v with
  | a :: u', b :: v' => (a - b) :: vsub u' v'
  | _, _ => []
  end.

Fixpoint vadd (u v : Vector) : Vector :=
  match u, v with
  | a :: u', b :: v' => (a + b) :: vadd u' v'
  | _, _ => []
  end.

Fixpoint vmul (u v : Vector) : Vector :=
  match u, v with
  | a :: u', b :: v' => (a * b) :: vmul u' v'
  | _, _ => []
  end.

Fixpoint vdiv (u v : Vector) : Vector :=
  match u, v with
  | a :: u', b :: v' => (a / b) :: vdiv u' v'
  | _, _ => []
  end.

Definition scale (c : R) (v : Vector) : Vector := map (Rmult c) v.

(** Matrix times vector, row by row. *)
Definition mulMV (M : Matrix) (v : Vector) : Vector :=
  map (fun row => dot row v) M.

(** Transposed matrix times vector: sum over the rows of [z_i * row_i];
    [n] is the column count. *)
Fixpoint mulTV (n : nat) (M : Matrix) (z : Vector) : Vector :=
  match M, z with
  | row :: M', zi :: z' => vadd (scale zi row) (mulTV n M' z')
  | _, _ => replicate n 0
  end.

(** [diagonal] of a block: entry [i] of row [i]. *)
Fixpoint diagonalFrom (i : nat) (M : Matrix) : Vector :=
  match M with
  | [] => []
  | row :: M' => nth i row 0 :: diagonalFrom (S i) M'
  end.

Definition diagonal (M : Matrix) : Vector := diagonalFrom 0 M.

(** Upper-triangular view of rows [i..] applied to the entries [i..] of a
    vector: only the entries on and right of the diagonal are read. *)
Fixpoint mulUpperFrom (i : nat) (M : Matrix) (x : Vector) : Vector :=
  match M, x with
  | row :: M', xi :: x' =>
      (nth i row 0 * xi + dot (drop (S i) row) x') :: mulUpperFrom (S i) M' x'
  | _, _ => []
  end.

Definition mulUpper (M : Matrix) (x : Vector) : Vector :=
  mulUpperFrom 0 M x.

(** Back substitution with the upper-triangular view, last row first:
    [x_i = (b_i - sum_{j>i} R_ij x_j) / R_ii]. *)
Fixpoint solveUpperFrom (i : nat) (M : Matrix) (b : Vector) : Vector :=
  match M, b with
  | row :: M', bi :: b' =>
      let x' := solveUpperFrom (S i) M' b' in
      ((bi - dot (drop (S i) row) x') / nth i row 0) :: x'
  | _, _ => []
  end.

Definition solveUpper (M : Matrix) (b : Vector) : Vector :=
  solveUpperFrom 0 M b.

(** Forward substitution with the transpose of the upper-triangular view,
    first row first: [z_i = (b_i - sum_{j<i} R_ji z_j) / R_ii]; the
    contribution of row [i] is subtracted from the entries right of it. *)
Fixpoint solveUpperTransposeFrom (i : nat) (M : Matrix) (b : Vector)
  : Vector :=
  match M, b with
  | row :: M', bi :: b' =>
      let zi := bi / nth i row 0 in
      zi :: solveUpperTransposeFrom (S i) M' (vsub b' (scale zi (drop (S i) row)))
  | _, _ => []
  end.

Definition solveUpperTranspose (M : Matrix) (b : Vector) : Vector :=
  solveUpperTransposeFrom 0 M b.

(** The transpose of the upper-triangular view of rows [i..] applied to a
    vector: entry [i] gets [R_ii z_i] and the entries right of it the
    contribution [z_i * R_ij] of row [i]. *)
Fixpoint mulUpperTransposeFrom (i : nat) (M : Matrix) (z : Vector)
  : Vector :=
  match M, z with
  | row :: M', zi :: z' =>
      (nth i row 0 * zi)
      :: vadd (scale zi (drop (S i) row)) (mulUpperTransposeFrom (S i) M' z')
  | _, _ => []
  end.

Definition mulUpperTranspose (M : Matrix) (z : Vector) : Vector :=
  mulUpperTransposeFrom 0 M z.

(** Shape predicates of a block. *)
Definition hasCols (n : nat) (M : Matrix) : Prop :=
  Forall (fun row => length row = n) M.

Definition isBlock (m n : nat) (M : Matrix) : Prop :=
  length M = m /\ hasCols n M.

Definition nonzeroDiagonal (M : Matrix) : Prop :=
  Forall (fun a => a <> 0) (diagonal M).

Fixpoint upperTriangularFrom (i : nat) (M : Matrix) : Prop :=
  match M with
  | [] => True
  | row :: M' => take i row = replicate (length (take i row)) 0
                 /\ upperTriangularFrom (S i) M'
  end.

Definition upperTriangular (M : Matrix) : Prop :=
  upperTriangularFrom 0 M.

End Dense.

Import Dense.

(** ** Keys, value assignments and failures *)

(** Modelled from the spec: the types [Key] and [VectorValues] are declared
    outside this file; a variable identifier is an opaque ordered key (an
    unsigned integer) and a value assignment maps each key to one dense
    vector. *)
Abbreviation Key := N (only parsing).
Abbreviation VectorValues := (gmap N (list R)) (only parsing).

(** Modelled from the spec: the failures of section 7, raised as exceptions
    by the value store and by the conditional unit; [MissingKey] is the
    keyed lookup of an absent key outside the parent lookup of a solve. *)
Inductive Error : Type :=
  | MissingParent (k : Key)
  | MissingKey (k : Key)
  | DuplicateVariable
  | DimensionMismatch (k : Key).

Inductive Result (A : Type) : Type :=
  | Ok (a : A)
  | Err (e : Error).

Arguments Ok {A} a.
Arguments Err {A} e.

Global Instance Result_ret : MRet Result := fun A a => Ok a.
Global Instance Result_bind : MBind Result := fun A B f m =>
  match m with
  | Ok a => f a
  | Err e => Err e
  end.

(** ** The conditional unit and the value store *)

(** Modelled from the spec: the diagonal noise model, declared outside this
    file: one scale per row. *)
Record Diagonal : Type := { sigmas : Vector }.

(** Modelled from the spec: the conditional unit, declared outside this
    file: one Gaussian conditional [R x_f + sum_j S_j x_pj = d] with its
    frontal keys and their block lengths, its parent keys each with its [S]
    block, the triangular block, the right-hand side and the optional noise
    model (absent means unit noise). *)
Record GaussianConditional : Type := {
  frontals : list (Key * nat);
  parents : list (Key * Matrix);
  get_R : Matrix;
  get_d : Vector;
  get_model : option Diagonal
}.

Definition frontalKeys (cg : GaussianConditional) : list Key :=
  (frontals cg).*1.

Definition parentKeys (cg : GaussianConditional) : list Key :=
  (parents cg).*1.

(** Modelled from the spec: the value store's keyed lookup, absent from the
    sources here; it errors on a missing key. *)
Definition lookupKey (mk : Key -> Error) (x : VectorValues) (k : Key)
  : Result (Vector) :=
  match x !! k with
  | Some v => Ok v
  | None => Err (mk k)
  end.

(** Modelled from the spec: the value store's insertion of an assignment
    ([VectorValues::insert]), absent from the sources here; inserting a key
    already present is a duplicate-variable error. *)
Definition insertValues (soln values : VectorValues)
  : Result (VectorValues) :=
  if gset_disjoint_dec (dom soln) (dom values) then Ok (soln ∪ values)
  else Err DuplicateVariable.

(** Modelled from the spec: the value store's insertion of one key. *)
Definition insertKey (soln : VectorValues) (k : Key) (v : Vector)
  : Result (VectorValues) :=
  match soln !! k with
  | Some _ => Err DuplicateVariable
  | None => Ok (<[k := v]> soln)
  end.

(** Modelled from the spec: whitening by a noise model divides each row's
    entry by that row's scale ([whitenInPlace], absent from the sources
    here). *)
Definition whiten (model : Diagonal) (v : Vector) : Vector :=
  vdiv v (sigmas model).

(** Modelled from the spec: the values of the parent keys, in order; a
    parent without a value is a missing-parent failure. *)
Fixpoint parentValues (ps : list (Key * Matrix)) (x : VectorValues)
  : Result (Matrix) :=
  match ps with
  | [] => Ok []
  | (k, _) :: ps' =>
      v ← lookupKey MissingParent x k;
      vs ← parentValues ps' x;
      Ok (v :: vs)
  end.

(** Modelled from the spec: [y - sum_j S_j x_pj]; a parent value whose
    length is not the column count of its block is a dimension mismatch. *)
Fixpoint subtractParents (ps : list (Key * Matrix)) (xs : Matrix)
  (y : Vector) : Result (Vector) :=
  match ps, xs with
  | (k, Sj) :: ps', xp :: xs' =>
      if decide (Forall (fun row => length row = length xp) Sj)
      then subtractParents ps' xs' (vsub y (mulMV Sj xp))
      else Err (DimensionMismatch k)
  | _, _ => Ok y
  end.

(** Modelled from the spec: the solved vector cut into the frontal blocks,
    each inserted under its key. *)
Fixpoint frontalSegments (fs : list (Key * nat)) (v : Vector)
  (acc : VectorValues) : Result (VectorValues) :=
  match fs with
  | [] => Ok acc
  | (k, n) :: fs' =>
      acc' ← insertKey acc k (take n v);
      frontalSegments fs' (drop n v) acc'
  end.

(** Modelled from the spec: [GaussianConditional::solve], absent from the
    sources here: given the known parent values, the frontal block
    [x_f = R^-1 (y - sum_j S_j x_pj)] with [y] the stored right-hand side
    (already whitened when the conditional was built so); a singular block
    is not guarded against. *)
Definition solve (cg : GaussianConditional) (x : VectorValues)
  : Result (VectorValues) :=
  xs ← parentValues (parents cg) x;
  y ← subtractParents (parents cg) xs (get_d cg);
  frontalSegments (frontals cg) (solveUpper (get_R cg) y) ∅.

(** Modelled from the spec: the supplied vector at the frontal keys,
    concatenated; an absent key is a lookup failure and a block of the wrong
    length a dimension mismatch. *)
Fixpoint frontalVector (fs : list (Key * nat)) (rhs : VectorValues)
  : Result (Vector) :=
  match fs with
  | [] => Ok []
  | (k, n) :: fs' =>
      v ← lookupKey MissingKey rhs k;
      if decide (length v = n)
      then (vs ← frontalVector fs' rhs; Ok (v ++ vs))
      else Err (DimensionMismatch k)
  end.

(** Modelled from the spec: [GaussianConditional::solveOtherRHS], absent
    from the sources here: as [solve], against a supplied right-hand side
    instead of the stored one. *)
Definition solveOtherRHS (cg : GaussianConditional)
  (known rhs : VectorValues) : Result (VectorValues) :=
  xs ← parentValues (parents cg) known;
  b ← frontalVector (frontals cg) rhs;
  y ← subtractParents (parents cg) xs b;
  frontalSegments (frontals cg) (solveUpper (get_R cg) y) ∅.

(** Modelled from the spec: the correction propagated into the parent
    blocks by the transpose solve: [gy_p := gy_p - S_p^T z]. *)
Fixpoint updateParents (ps : list (Key * Matrix)) (z : Vector)
  (gy : VectorValues) : Result (VectorValues) :=
  match ps with
  | [] => Ok gy
  | (k, Sj) :: ps' =>
      v ← lookupKey MissingKey gy k;
      if decide (Forall (fun row => length row = length v) Sj)
      then updateParents ps' z (<[k := vsub v (mulTV (length v) Sj z)]> gy)
      else Err (DimensionMismatch k)
  end.

(** Modelled from the spec: the frontal blocks overwritten with the
    segments of the solved vector. *)
Fixpoint writeFrontals (fs : list (Key * nat)) (v : Vector)
  (gy : VectorValues) : VectorValues :=
  match fs with
  | [] => gy
  | (k, n) :: fs' => writeFrontals fs' (drop n v) (<[k := take n v]> gy)
  end.

(** Modelled from the spec: [GaussianConditional::solveTransposeInPlace],
    absent from the sources here: the in-place transpose-solve step, which
    updates the conditional's own frontal block ([gz' R' = gx'],
    [gy = gz .* sigmas]) and propagates a correction into each parent
    block. *)
Definition solveTransposeInPlace (cg : GaussianConditional)
  (gy : VectorValues) : Result (VectorValues) :=
  b ← frontalVector (frontals cg) gy;
  let gz := solveUpperTranspose (get_R cg) b in
  gy' ← updateParents (parents cg) gz gy;
  let z := match get_model cg with
           | Some model => vmul gz (sigmas model)
           | None => gz
           end in
  Ok (writeFrontals (frontals cg) z gy').

(** ** The Bayes network (GaussianBayesNet.cpp) *)

(** The ordered sequence of conditionals, first eliminated first. *)
Abbreviation GaussianBayesNet := (list GaussianConditional) (only parsing).

(** [BOOST_FOREACH] over a sequence with a body that may fail: the state
    is threaded through the passes and the first failure ends the loop. *)
Fixpoint forEach {A B : Type} (body : A -> B -> Result A) (l : list B) (a : A)
  : Result A :=
  match l with
  | [] => Ok a
  | b :: rest => a' ← body a b; forEach body rest a'
  end.

(** One pass of the loop of [optimize]: [soln.insert(cg->solve(soln))]. *)
Definition optimizeStep (soln : VectorValues) (cg : GaussianConditional)
  : Result (VectorValues) :=
  values ← solve cg soln;
  insertValues soln values.

(** [GaussianBayesNet::optimize(solutionForMissing)]: the conditionals are
    visited in reverse order. *)
Definition optimize (bn : GaussianBayesNet)
  (solutionForMissing : VectorValues) : Result (VectorValues) :=
  forEach optimizeStep (rev bn) solutionForMissing.

(** [GaussianBayesNet::optimize()] *)
Definition optimize0 (bn : GaussianBayesNet)
  : Result (VectorValues) :=
  optimize bn ∅.

(** One pass of the loop of [backSubstitute]:
    [result.insert(cg->solveOtherRHS(result, rhs))]. *)
Definition backSubstituteStep (rhs result : VectorValues)
  (cg : GaussianConditional) : Result (VectorValues) :=
  values ← solveOtherRHS cg result rhs;
  insertValues result values.

(** [GaussianBayesNet::backSubstitute(rhs)] *)
Definition backSubstitute (bn : GaussianBayesNet)
  (rhs : VectorValues) : Result (VectorValues) :=
  forEach (backSubstituteStep rhs) (rev bn) ∅.

(** [GaussianBayesNet::backSubstituteTranspose(gx)]: the conditionals are
    visited in forward order, each updating [gy] in place. *)
Definition backSubstituteTranspose (bn : GaussianBayesNet)
  (gx : VectorValues) : Result (VectorValues) :=
  forEach (fun gy cg => solveTransposeInPlace cg gy) bn gx.

(** One pass of the loop of [logDeterminant]. *)
Definition logDeterminantStep (logDet : R) (cg : GaussianConditional) : R :=
  match get_model cg with
  | Some model =>
      let diag := whiten model (diagonal (get_R cg)) in
      (logDet + sum (unaryExpr ln diag))%R
  | None =>
      (logDet + sum (unaryExpr ln (diagonal (get_R cg))))%R
  end.

(** [GaussianBayesNet::logDeterminant()] *)
Definition logDeterminant (bn : GaussianBayesNet) : R :=
  fold_left logDeterminantStep bn 0%R.

(** [GaussianBayesNet::determinant()] *)
Definition determinant (bn : GaussianBayesNet) : R :=
  exp (logDeterminant bn).

(** ** The factor-graph delegation bridge *)

(** Modelled from the spec: one linear factor of the weighted-residual
    graph, declared outside this file. *)
Record JacobianFactor : Type := {
  factorFrontals : list (Key * nat);
  factorParents : list (Key * Matrix);
  factor_R : Matrix;
  factor_d : Vector;
  factor_model : option Diagonal
}.

(** Modelled from the spec: the construction of the factor graph from the
    network ([GaussianFactorGraph(const GaussianBayesNet&)], absent from the
    sources here): each conditional becomes one linear factor with the same
    R/S/d/noise-model data, in the same order. *)
Definition asFactor (cg : GaussianConditional) : JacobianFactor :=
  {| factorFrontals := frontals cg;
     factorParents := parents cg;
     factor_R := get_R cg;
     factor_d := get_d cg;
     factor_model := get_model cg |}.

(** Modelled from the spec: the graph rebuilt from the ordered conditional
    sequence, one factor per conditional. *)
Definition GaussianFactorGraph (bn : GaussianBayesNet)
  : list JacobianFactor :=
  map asFactor bn.

(** The queries of the factor graph, an external collaborator whose code is
    not in this file: they are taken as given. *)
Class FactorGraphQueries : Type := {
  fg_gradient : list JacobianFactor -> VectorValues -> Result (VectorValues);
  fg_gradientAtZero : list JacobianFactor -> Result (VectorValues);
  fg_error : list JacobianFactor -> VectorValues -> Result R;
  fg_jacobian : list JacobianFactor -> Result (Matrix * Vector);
  fg_optimizeGradientSearch : list JacobianFactor -> Result (VectorValues)
}.

Section Bridge.
Context `{Q : FactorGraphQueries}.

(** [GaussianBayesNet::optimizeGradientSearch()] *)
Definition optimizeGradientSearch (bn : GaussianBayesNet) :=
  fg_optimizeGradientSearch (GaussianFactorGraph bn).

(** [GaussianBayesNet::gradient(x0)] *)
Definition gradient (bn : GaussianBayesNet) (x0 : VectorValues) :=
  fg_gradient (GaussianFactorGraph bn) x0.

(** [GaussianBayesNet::gradientAtZero()] *)
Definition gradientAtZero (bn : GaussianBayesNet) :=
  fg_gradientAtZero (GaussianFactorGraph bn).

(** [GaussianBayesNet::error(x)] *)
Definition error (bn : GaussianBayesNet) (x : VectorValues) :=
  fg_error (GaussianFactorGraph bn) x.

(** [GaussianBayesNet::matrix()] *)
Definition matrix (bn : GaussianBayesNet) :=
  fg_jacobian (GaussianFactorGraph bn).
End Bridge.

(** ** The determinant engine on IEEE doubles *)

Module Double.
Import PrimFloat.

(** The C library's [log] and [exp] on doubles are external to the program:
    they are taken as given. *)
Class Libm : Type := {
  log : float -> float;
  exp : float -> float
}.

(** Modelled from the spec: the diagonal noise model, one scale per row. *)
Record Diagonal : Type := { sigmas : list float }.

(** Modelled from the spec: what the determinant engine reads of a
    conditional, declared outside this file: the triangular block and the
    optional noise model. *)
Record GaussianConditional : Type := {
  get_R : list (list float);
  get_model : option Diagonal
}.

(** [diagonal] of a block: entry [i] of row [i]. *)
Fixpoint diagonalFrom (i : nat) (M : list (list float)) : list float :=
  match M with
  | [] => []
  | row :: M' => nth i row 0%float :: diagonalFrom (S i) M'
  end.

Definition diagonal (M : list (list float)) : list float := diagonalFrom 0 M.

(** [sum] of an Eigen vector expression, the entries added in index
    order; the sum of one entry is that entry. *)
Definition sum (v : list float) : float :=
  match v with
  | [] => 0%float
  | x :: rest => fold_left add rest x
  end.

(** Coefficient-wise [unaryExpr]. *)
Definition unaryExpr (f : float -> float) (v : list float) : list float :=
  map f v.

Fixpoint vdiv (u v : list float) : list float :=
  match u, v with
  | a :: u', b :: v' => (a / b)%float :: vdiv u' v'
  | _, _ => []
  end.

(** Modelled from the spec: whitening by a noise model divides each row's
    entry by that row's scale ([whitenInPlace], absent from the sources
    here). *)
Definition whiten (model : Diagonal) (v : list float) : list float :=
  vdiv v (sigmas model).

(** One pass of the loop of [logDeterminant]. *)
Definition logDeterminantStep `{L : Libm} (logDet : float)
  (cg : GaussianConditional) : float :=
  match get_model cg with
  | Some model =>
      let diag := whiten model (diagonal (get_R cg)) in
      (logDet + sum (unaryExpr log diag))%float
  | None =>
      (logDet + sum (unaryExpr log (diagonal (get_R cg))))%float
  end.

(** [GaussianBayesNet::logDeterminant()] *)
Definition logDeterminant `{L : Libm} (bn : list GaussianConditional) : float :=
  fold_left logDeterminantStep bn 0%float.

(** [GaussianBayesNet::determinant()] *)
Definition determinant `{L : Libm} (bn : list GaussianConditional) : float :=
  exp (logDeterminant bn).

(** The conditional with a noise model attached. *)
Definition withModel (cg : GaussianConditional) (model : Diagonal)
  : GaussianConditional :=
  {| get_R := get_R cg; get_model := Some model |}.

(** The diagonal entries of a conditional, whitened by its noise model when
    it carries one. *)
Definition whitenedDiagonal (cg : GaussianConditional) : list float :=
  match get_model cg with
  | Some model => whiten model (diagonal (get_R cg))
  | None => diagonal (get_R cg)
  end.

(** The values of the C library's [log] at the doubles [1], [1.5], [2] and
    [3], and of its [exp] at [0]; the samples say nothing elsewhere. *)
Definition logSamples (x : float) : float :=
  if (x =? 1)%float then 0%float
  else if (x =? 1.5)%float then 0x1.9f323ecbf984cp-2%float
  else if (x =? 2)%float then 0x1.62e42fefa39efp-1%float
  else if (x =? 3)%float then 0x1.193ea7aad030bp+0%float
  else nan.

Definition expSamples (x : float) : float :=
  if (x =? 0)%float then 1%float else nan.

Definition libmSamples : Libm := {| log := logSamples; exp := expSamples |}.

(** The single-row conditional with diagonal entry [r] and no noise
    model. *)
Definition singleRow (r : float) : GaussianConditional :=
  {| get_R := [[r]]; get_model := None |}.

(** The chain of the specification: conditional A has R=[[2]] and
    conditional B has R=[[1]]. *)
Definition condA : GaussianConditional := singleRow 2%float.
Definition condB : GaussianConditional := singleRow 1%float.
Definition chain : list GaussianConditional := [condA; condB].

(** The noise model of scale 2 on a single row. *)
Definition sigma2 : Diagonal := {| sigmas := [2%float] |}.
End Double.

(** ** The hand-built chain of the specification *)

Module Chain.
Definition x1 : Key := 1%N.
Definition x2 : Key := 2%N.

(** Conditional A: frontal [x1], parent [x2], R=[[2]], S=[[1]], d=[5]. *)
Definition condA : GaussianConditional :=
  {| frontals := [(x1, 1%nat)];
     parents := [(x2, [[1%R]])];
     get_R := [[2%R]];
     get_d := [5%R];
     get_model := None |}.

(** Conditional B: frontal [x2], no parents, R=[[1]], d=[3]. *)
Definition condB : GaussianConditional :=
  {| frontals := [(x2, 1%nat)];
     parents := [];
     get_R := [[1%R]];
     get_d := [3%R];
     get_model := None |}.

Definition chain : GaussianBayesNet := [condA; condB].
End Chain.

(** ** Invariants of a network and what a solution satisfies *)

(** The frontal keys of all conditionals, in order. *)
Definition networkFrontalKeys (bn : GaussianBayesNet) : list Key :=
  concat (map frontalKeys bn).

(** The parent keys of all conditionals, in order. *)
Definition networkParentKeys (bn : GaussianBayesNet) : list Key :=
  concat (map parentKeys bn).

(** The dimension of the triangular block: the frontal block lengths summed. *)
Definition frontalDim (cg : GaussianConditional) : nat :=
  sum_list (frontals cg).*2.

(** The invariants of one conditional, with [dim] the block length of each
    variable: R is square, upper-triangular and has a non-singular diagonal;
    each S block has as many rows as R and as many columns as its parent's
    block; the right-hand side has as many entries as R has rows. *)
Record wfConditional (dim : Key -> nat) (cg : GaussianConditional) : Prop := {
  wf_frontals : Forall (fun kn => dim kn.1 = kn.2) (frontals cg);
  wf_parents :
    Forall (fun kS => length kS.2 = frontalDim cg /\ hasCols (dim kS.1) kS.2)
           (parents cg);
  wf_R : isBlock (frontalDim cg) (frontalDim cg) (get_R cg);
  wf_upper : upperTriangular (get_R cg);
  wf_diagonal : nonzeroDiagonal (get_R cg);
  wf_d : length (get_d cg) = frontalDim cg
}.

(** Every stored vector has the block length of its variable. *)
Definition dimsAgree (dim : Key -> nat) (x : VectorValues) : Prop :=
  forall k v, x !! k = Some v -> length v = dim k.

(** Every parent key of every conditional belongs to a later-positioned
    conditional or to the supplied assignment. *)
Fixpoint resolvable (bn : GaussianBayesNet) (supplied : gset Key) : Prop :=
  match bn with
  | [] => True
  | cg :: rest =>
      Forall (fun p => p ∈ supplied \/ p ∈ networkFrontalKeys rest) (parentKeys cg)
      /\ resolvable rest supplied
  end.

(** The assignment [x] satisfies the conditional:
    [x_f = R^-1 (y - sum_j S_j x_pj)], that is [R x_f = y - sum_j S_j x_pj],
    with [x_f] the frontal blocks of [x], [x_pj] its parent blocks and [y]
    the stored right-hand side. *)
Definition conditionalHolds (cg : GaussianConditional) (x : VectorValues)
  : Prop :=
  exists xf xps rhs,
    frontalVector (frontals cg) x = Ok xf
    /\ parentValues (parents cg) x = Ok xps
    /\ subtractParents (parents cg) xps (get_d cg) = Ok rhs
    /\ xf = solveUpper (get_R cg) rhs
    /\ mulMV (get_R cg) xf = rhs.

(** The factor carries the R/S/d/noise-model data of the conditional. *)
Definition sameData (cg : GaussianConditional) (f : JacobianFactor) : Prop :=
  factorFrontals f = frontals cg
  /\ factorParents f = parents cg
  /\ factor_R f = get_R cg
  /\ factor_d f = get_d cg
  /\ factor_model f = get_model cg.

(** ** Further notions for the properties of the operations *)

(** The assignment [x] satisfies the linear equation of the conditional:
    [R x_f = y - sum_j S_j x_pj], with [x_f] the frontal blocks of [x],
    [x_pj] its parent blocks and [y] the stored right-hand side. *)
Definition satisfiesEquation (cg : GaussianConditional) (x : VectorValues)
  : Prop :=
  exists xf xps rhs,
    frontalVector (frontals cg) x = Ok xf
    /\ parentValues (parents cg) x = Ok xps
    /\ subtractParents (parents cg) xps (get_d cg) = Ok rhs
    /\ mulMV (get_R cg) xf = rhs.

(** The noise model of a conditional, when there is one, has one scale per
    row of the triangular block. *)
Definition wfModel (cg : GaussianConditional) : Prop :=
  match get_model cg with
  | Some model => length (sigmas model) = frontalDim cg
  | None => True
  end.

(** The keys a network mentions: frontal or parent of some conditional. *)
Definition mentioned (bn : GaussianBayesNet) (k : Key) : Prop :=
  k ∈ networkFrontalKeys bn \/ k ∈ networkParentKeys bn.

(** * Properties *)

(** ** Triangular solves *)

Section DenseFacts.
Local Open Scope R_scope.

Lemma length_vsub u v : length (vsub u v) = Nat.min (length u) (length v).
Proof.
  revert v; induction u as [|a u IH]; intros [|b v]; simpl; auto.
Qed.

Lemma length_mulMV M v : length (mulMV M v) = length M.
Proof. unfold mulMV. by rewrite length_map. Qed.

Lemma length_solveUpperFrom i M b :
  length (solveUpperFrom i M b) = Nat.min (length M) (length b).
Proof.
  revert i b; induction M as [|row M IH]; intros i [|bi b]; simpl; auto.
Qed.

Lemma length_mulUpperFrom i M x :
  length (mulUpperFrom i M x) = Nat.min (length M) (length x).
Proof.
  revert i x; induction M as [|row M IH]; intros i [|xi x]; simpl; auto.
Qed.

(** Back substitution inverts the upper-triangular view. *)
Lemma mulUpperFrom_solveUpperFrom i M b :
  Forall (fun a => a <> 0) (diagonalFrom i M) ->
  length M = length b ->
  mulUpperFrom i M (solveUpperFrom i M b) = b.
Proof.
  revert i b; induction M as [|row M IH]; intros i [|bi b] Hdiag Hlen;
    simpl in *; try done.
  inversion Hdiag as [|? ? Hnz Hrest]; subst.
  rewrite IH by (auto; lia). f_equal. by field.
Qed.

Lemma solveUpperFrom_mulUpperFrom i M x :
  Forall (fun a => a <> 0) (diagonalFrom i M) ->
  length M = length x ->
  solveUpperFrom i M (mulUpperFrom i M x) = x.
Proof.
  revert i x; induction M as [|row M IH]; intros i [|xi x] Hdiag Hlen;
    simpl in *; try done.
  inversion Hdiag as [|? ? Hnz Hrest]; subst.
  rewrite IH by (auto; lia). f_equal. by field.
Qed.

Lemma mulUpper_solveUpper M b :
  nonzeroDiagonal M -> length M = length b ->
  mulUpper M (solveUpper M b) = b.
Proof. apply mulUpperFrom_solveUpperFrom. Qed.

Lemma solveUpper_mulUpper M x :
  nonzeroDiagonal M -> length M = length x ->
  solveUpper M (mulUpper M x) = x.
Proof. apply solveUpperFrom_mulUpperFrom. Qed.

Lemma length_solveUpper M b :
  length M = length b -> length (solveUpper M b) = length b.
Proof. intros H. unfold solveUpper. rewrite length_solveUpperFrom. lia. Qed.

Lemma length_scale c v : length (scale c v) = length v.
Proof. unfold scale. by rewrite length_map. Qed.

Lemma vadd_vsub u v : length u = length v -> vadd u (vsub v u) = v.
Proof.
  revert v; induction u as [|a u IH]; intros [|b v] Hlen; simpl in *; try done.
  rewrite IH by lia. f_equal. lra.
Qed.

(** Forward substitution inverts the transpose of the upper-triangular
    view. *)
Lemma mulUpperTransposeFrom_solve i M : forall b,
  Forall (fun a => a <> 0) (diagonalFrom i M) ->
  Forall (fun row => length row = (i + length M)%nat) M ->
  length M = length b ->
  mulUpperTransposeFrom i M (solveUpperTransposeFrom i M b) = b.
Proof.
  revert i; induction M as [|row M IH]; intros i [|bi b] Hdiag Hrows Hlen;
    simpl in *; try done.
  inversion Hdiag as [|? ? Hnz Hrest]; subst.
  inversion Hrows as [|? ? Hrow Hrows']; subst.
  assert (length (scale (bi / nth i row 0) (drop (S i) row)) = length b) as Hs.
  { rewrite length_scale, length_drop. lia. }
  rewrite IH.
  - rewrite vadd_vsub by done. f_equal. by field.
  - done.
  - eapply Forall_impl; [exact Hrows'|]. simpl. intros; lia.
  - rewrite length_vsub. lia.
Qed.

Lemma mulUpperTranspose_solveUpperTranspose M b :
  nonzeroDiagonal M -> hasCols (length M) M -> length M = length b ->
  mulUpperTranspose M (solveUpperTranspose M b) = b.
Proof. intros Hdiag Hcols Hlen. by apply mulUpperTransposeFrom_solve. Qed.

(** A two-by-two block, solved both ways. *)
Example solveUpper_2x2 :
  solveUpper [[2; 1]; [0; 4]] [4; 8] = [1; 2].
Proof. unfold solveUpper. simpl. f_equal; [|f_equal]; lra. Qed.

Example solveUpperTranspose_2x2 :
  solveUpperTranspose [[2; 1]; [0; 4]] [2; 9] = [1; 2].
Proof. unfold solveUpperTranspose. simpl. f_equal; [|f_equal]; lra. Qed.

Lemma dot_nil_r u : dot u [] = 0.
Proof. by destruct u. Qed.

Lemma dot_app u1 u2 v1 v2 :
  length u1 = length v1 ->
  dot (u1 ++ u2) (v1 ++ v2) = dot u1 v1 + dot u2 v2.
Proof.
  revert v1; induction u1 as [|a u1 IH]; intros [|b v1] Hlen;
    simpl in *; try done.
  - lra.
  - rewrite IH by lia. lra.
Qed.

Lemma dot_zeros n v : dot (replicate n 0) v = 0.
Proof.
  revert v; induction n as [|n IH]; intros [|b v]; simpl; try done.
  rewrite IH. lra.
Qed.

(** On an upper-triangular block the triangular view is the block. *)
Lemma mulUpperFrom_mulMV i M pre x :
  length pre = i ->
  upperTriangularFrom i M ->
  Forall (fun row => (i + length x <= length row)%nat) M ->
  length M = length x ->
  mulUpperFrom i M x = drop 0 (mulMV M (pre ++ x)).
Proof.
  revert i pre x; induction M as [|row M IH]; intros i pre [|xi x] Hpre Htri Hrows Hlen;
    simpl in *; try done.
  destruct Htri as [Hzero Htri]. inversion Hrows as [|? ? Hrow Hrows']; subst.
  f_equal.
  - rewrite <- (take_drop (length pre) row) at 3.
    rewrite Hzero, dot_app by (rewrite length_replicate, length_take; lia).
    rewrite dot_zeros.
    destruct (drop (length pre) row) as [|a tl] eqn:Hdrop.
    { apply (f_equal length) in Hdrop. rewrite length_drop in Hdrop.
      simpl in Hdrop. lia. }
    assert (nth (length pre) row 0 = a) as ->.
    { rewrite <- (take_drop (length pre) row), Hdrop.
      rewrite app_nth2 by (rewrite length_take; lia).
      rewrite length_take. replace (length pre `min` length row)%nat with (length pre) by lia.
      by rewrite Nat.sub_diag. }
    assert (drop (S (length pre)) row = tl) as ->.
    { replace (S (length pre)) with (length pre + 1)%nat by lia.
      rewrite <- drop_drop, Hdrop. done. }
    simpl. lra.
  - specialize (IH (S (length pre)) (pre ++ [xi]) x).
    rewrite <- app_assoc in IH. simpl in IH. rewrite drop_0 in IH.
    apply IH; try done.
    + rewrite length_app. simpl. lia.
    + eapply Forall_impl; [exact Hrows'|]. simpl. intros; lia.
    + lia.
Qed.

Lemma mulUpper_mulMV M x :
  upperTriangular M -> hasCols (length x) M -> length M = length x ->
  mulUpper M x = mulMV M x.
Proof.
  intros Htri Hcols Hlen.
  unfold mulUpper. rewrite (mulUpperFrom_mulMV 0 M [] x); try done.
  eapply Forall_impl; [exact Hcols|]. simpl. intros; lia.
Qed.
End DenseFacts.

(** ** The failure monad and the loops *)

Section ResultFacts.
Context {A B : Type}.

Lemma bind_Ok (m : Result A) (f : A -> Result B) b :
  m ≫= f = Ok b <-> exists a, m = Ok a /\ f a = Ok b.
Proof.
  destruct m as [a|e]; simpl; split.
  - intros H. by exists a.
  - by intros (a' & [= <-] & H).
  - done.
  - by intros (a' & ? & _).
Qed.

Lemma bind_Err (m : Result A) (f : A -> Result B) e :
  m ≫= f = Err e <-> m = Err e \/ exists a, m = Ok a /\ f a = Err e.
Proof.
  destruct m as [a|e']; simpl; split.
  - intros H. right. by exists a.
  - intros [?|(a' & [= <-] & H)]; done.
  - intros [= ->]. by left.
  - intros [[= ->]|(a' & ? & _)]; done.
Qed.
End ResultFacts.

Lemma forEach_app {A B} (body : A -> B -> Result A) l1 l2 a :
  forEach body (l1 ++ l2) a = forEach body l1 a ≫= forEach body l2.
Proof.
  revert a; induction l1 as [|b l1 IH]; intros a; simpl; [done|].
  destruct (body a b) as [a'|e]; simpl; [apply IH|done].
Qed.

Lemma forEach_snoc {A B} (body : A -> B -> Result A) l b a :
  forEach body (l ++ [b]) a = forEach body l a ≫= fun a' => body a' b.
Proof.
  rewrite forEach_app. destruct (forEach body l a) as [a'|e]; simpl; [|done].
  by destruct (body a' b).
Qed.

(** The reverse loop of [optimize] meets the first conditional last. *)
Lemma optimize_cons cg rest s :
  optimize (cg :: rest) s = optimize rest s ≫= fun soln => optimizeStep soln cg.
Proof. unfold optimize. simpl rev. apply forEach_snoc. Qed.

(** ** The value store *)

Section ValueStore.
Implicit Types (s r x acc : gmap N (list R)) (k : N) (v : list R).

Lemma insertKey_Ok s k v s' :
  insertKey s k v = Ok s' <-> s !! k = None /\ s' = <[k := v]> s.
Proof.
  unfold insertKey. destruct (s !! k); split.
  - done.
  - intros [? _]. done.
  - intros [= <-]. by split.
  - intros [_ ->]. done.
Qed.

Lemma insertKey_Err s k v e :
  insertKey s k v = Err e -> e = DuplicateVariable /\ is_Some (s !! k).
Proof. unfold insertKey. destruct (s !! k); [|done]. intros [= <-]. eauto. Qed.

Lemma insertValues_Ok s r s' :
  insertValues s r = Ok s' <-> dom s ## dom r /\ s' = s ∪ r.
Proof.
  unfold insertValues. destruct (gset_disjoint_dec _ _) as [Hd|Hd]; split.
  - intros [= <-]. by split.
  - intros [_ ->]. done.
  - done.
  - intros [? _]. done.
Qed.

Lemma insertValues_Err s r e :
  insertValues s r = Err e <-> ~ dom s ## dom r /\ e = DuplicateVariable.
Proof.
  unfold insertValues. destruct (gset_disjoint_dec _ _) as [Hd|Hd]; split.
  - done.
  - intros [? _]. done.
  - intros [= <-]. by split.
  - intros [_ ->]. done.
Qed.

Lemma lookupKey_Ok mk x k v : lookupKey mk x k = Ok v <-> x !! k = Some v.
Proof. unfold lookupKey. destruct (x !! k); split; congruence. Qed.

Lemma lookupKey_Err mk x k e :
  lookupKey mk x k = Err e <-> x !! k = None /\ e = mk k.
Proof.
  unfold lookupKey. destruct (x !! k); split.
  - done.
  - intros [? _]. done.
  - intros [= <-]. by split.
  - intros [_ ->]. done.
Qed.

Lemma lookupKey_mono mk x x' k v :
  x ⊆ x' -> lookupKey mk x k = Ok v -> lookupKey mk x' k = Ok v.
Proof.
  rewrite !lookupKey_Ok. intros Hsub Hx. by eapply lookup_weaken.
Qed.
End ValueStore.

(** ** The conditional unit *)

Section FrontalBlocks.
Implicit Types (fs : list (N * nat)) (v : list R) (acc r x : gmap N (list R)).

Lemma frontalSegments_Ok fs : forall v acc r,
  frontalSegments fs v acc = Ok r ->
  NoDup fs.*1
  /\ (forall k, k ∈ fs.*1 -> acc !! k = None)
  /\ dom r = dom acc ∪ list_to_set fs.*1
  /\ acc ⊆ r.
Proof.
  induction fs as [|[k n] fs IH]; intros v acc r; simpl.
  - intros [= <-]. split; [constructor|]. split; [set_solver|]. split; [set_solver|done].
  - intros (acc' & [Hfresh ->]%insertKey_Ok & Hrest)%bind_Ok.
    destruct (IH _ _ _ Hrest) as (Hnd & Hnone & Hdom & Hsub).
    assert (k ∉ fs.*1) as Hk.
    { intros Hin. specialize (Hnone k Hin). by rewrite lookup_insert_eq in Hnone. }
    split; [by constructor|]. split; [|split].
    + intros k' [->|Hin]%elem_of_cons; [done|].
      specialize (Hnone k' Hin).
      rewrite lookup_insert_ne in Hnone; [done|]. intros ->. done.
    + rewrite Hdom, dom_insert_L. set_solver.
    + etrans; [|exact Hsub]. by apply insert_subseteq.
Qed.

Lemma frontalSegments_succeeds fs : forall v acc,
  NoDup fs.*1 -> (forall k, k ∈ fs.*1 -> acc !! k = None) ->
  exists r, frontalSegments fs v acc = Ok r.
Proof.
  induction fs as [|[k n] fs IH]; intros v acc Hnd Hnone; simpl.
  - by eexists.
  - apply NoDup_cons in Hnd as [Hk Hnd].
    unfold insertKey. rewrite (Hnone k) by set_solver. simpl.
    apply IH; [done|]. intros k' Hin.
    rewrite lookup_insert_ne by (intros ->; done). apply Hnone. set_solver.
Qed.

Lemma frontalSegments_Err fs : forall v acc e,
  frontalSegments fs v acc = Err e -> e = DuplicateVariable.
Proof.
  induction fs as [|[k n] fs IH]; intros v acc e; simpl; [done|].
  intros [H|(acc' & _ & H)]%bind_Err.
  - by apply insertKey_Err in H as [-> _].
  - by eapply IH.
Qed.

Lemma frontalVector_mono fs : forall x x' v,
  x ⊆ x' -> frontalVector fs x = Ok v -> frontalVector fs x' = Ok v.
Proof.
  induction fs as [|[k n] fs IH]; intros x x' v Hsub; simpl; [done|].
  intros (w & Hw & Hrest)%bind_Ok.
  rewrite (lookupKey_mono _ _ _ _ _ Hsub Hw). simpl.
  case_decide; [|done].
  apply bind_Ok in Hrest as (ws & Hws & [= <-]).
  by rewrite (IH _ _ _ Hsub Hws).
Qed.

(** Reading back the frontal blocks gives the solved vector. *)
Lemma frontalSegments_vector fs : forall v acc r,
  frontalSegments fs v acc = Ok r ->
  length v = sum_list fs.*2 ->
  frontalVector fs r = Ok v.
Proof.
  induction fs as [|[k n] fs IH]; intros v acc r; simpl.
  - intros _ Hlen. by destruct v.
  - intros (acc' & [Hfresh ->]%insertKey_Ok & Hrest)%bind_Ok Hlen.
    change (length v = n + sum_list fs.*2) in Hlen.
    destruct (frontalSegments_Ok _ _ _ _ Hrest) as (_ & _ & _ & Hsub).
    assert (r !! k = Some (take n v)) as Hk.
    { eapply lookup_weaken; [|exact Hsub]. apply lookup_insert_eq. }
    unfold lookupKey. rewrite Hk. simpl.
    assert (length (take n v) = n) as Htake
      by (rewrite length_take; clear -Hlen; lia).
    assert (length (drop n v) = sum_list fs.*2) as Hdrop
      by (rewrite length_drop; clear -Hlen; lia).
    rewrite decide_True by done.
    rewrite (IH _ _ _ Hrest) by done. simpl.
    by rewrite take_drop.
Qed.

Lemma frontalSegments_dims dim fs : forall v acc r,
  frontalSegments fs v acc = Ok r ->
  length v = sum_list fs.*2 ->
  Forall (fun kn => dim kn.1 = kn.2) fs ->
  dimsAgree dim acc -> dimsAgree dim r.
Proof.
  induction fs as [|[k n] fs IH]; intros v acc r; simpl.
  - by intros [= <-].
  - intros (acc' & [Hfresh ->]%insertKey_Ok & Hrest)%bind_Ok Hlen Hdims Hacc.
    change (length v = n + sum_list fs.*2) in Hlen.
    inversion Hdims as [|? ? Hk Hdims']; subst. simpl in Hk.
    eapply IH; [exact Hrest| |done|].
    + rewrite length_drop. clear -Hlen. lia.
    + intros k' w. destruct (decide (k' = k)) as [->|Hne].
      * rewrite lookup_insert_eq. intros [= <-]. rewrite length_take.
        clear -Hlen Hk. lia.
      * rewrite lookup_insert_ne by done. apply Hacc.
Qed.
End FrontalBlocks.

Section ParentBlocks.
Implicit Types (ps : list (N * list (list R))) (x : gmap N (list R)).

Lemma parentValues_Ok ps : forall x xps,
  parentValues ps x = Ok xps ->
  Forall2 (fun kS v => x !! kS.1 = Some v) ps xps.
Proof.
  induction ps as [|[k Sj] ps IH]; intros x xps; simpl.
  - intros [= <-]. constructor.
  - intros (v & Hv%lookupKey_Ok & (vs & Hvs & [= <-])%bind_Ok)%bind_Ok.
    constructor; [done|]. by apply IH.
Qed.

Lemma parentValues_succeeds ps x :
  Forall (fun k => is_Some (x !! k)) ps.*1 ->
  exists xps, parentValues ps x = Ok xps.
Proof.
  induction ps as [|[k Sj] ps IH]; [by eexists|].
  rewrite fmap_cons. intros [[v Hv] Hrest]%Forall_cons.
  destruct (IH Hrest) as [vs Hvs].
  exists (v :: vs). simpl in *. unfold lookupKey. by rewrite Hv, Hvs.
Qed.

Lemma parentValues_Err ps x e :
  parentValues ps x = Err e ->
  exists k, e = MissingParent k /\ k ∈ ps.*1 /\ x !! k = None.
Proof.
  induction ps as [|[k Sj] ps IH]; [done|].
  rewrite fmap_cons. simpl.
  intros [[Hnone ->]%lookupKey_Err|(v & _ & Hrest)]%bind_Err.
  - exists k. set_solver.
  - apply bind_Err in Hrest as [Hrest|(vs & _ & ?)]; [|done].
    destruct (IH Hrest) as (k' & -> & Hin & Hnone).
    exists k'. set_solver.
Qed.

(** A parent without a value makes the lookup of the parents fail with a
    missing-parent failure. *)
Lemma parentValues_missing ps x k :
  k ∈ ps.*1 -> x !! k = None ->
  exists k', parentValues ps x = Err (MissingParent k').
Proof.
  intros Hin Hnone. destruct (parentValues ps x) as [xps|e] eqn:Hpv.
  - apply parentValues_Ok in Hpv.
    apply list_elem_of_fmap in Hin as ([k' Sj] & -> & Hin).
    apply list_elem_of_lookup in Hin as [i Hi].
    destruct (Forall2_lookup_l _ _ _ _ _ Hpv Hi) as (v & _ & Hv).
    simpl in *. congruence.
  - destruct (parentValues_Err _ _ _ Hpv) as (k' & -> & _). by exists k'.
Qed.

Lemma parentValues_mono ps : forall x x' xps,
  x ⊆ x' -> parentValues ps x = Ok xps -> parentValues ps x' = Ok xps.
Proof.
  induction ps as [|[k Sj] ps IH]; intros x x' xps Hsub; simpl; [done|].
  intros (v & Hv & (vs & Hvs & [= <-])%bind_Ok)%bind_Ok.
  by rewrite (lookupKey_mono _ _ _ _ _ Hsub Hv), (IH _ _ _ Hsub Hvs).
Qed.

Lemma subtractParents_succeeds dim n ps : forall xps y,
  Forall2 (fun kS v => length v = dim kS.1) ps xps ->
  Forall (fun kS => length kS.2 = n /\ hasCols (dim kS.1) kS.2) ps ->
  length y = n ->
  exists rhs, subtractParents ps xps y = Ok rhs /\ length rhs = n.
Proof.
  induction ps as [|[k Sj] ps IH]; intros xps y Hxps Hps Hy.
  - inversion Hxps; subst. by exists y.
  - inversion Hxps as [|? xp ? xps' Hxp Hxps']; subst.
    inversion Hps as [|? ? [Hrows Hcols] Hps']; subst. simpl in *.
    rewrite decide_True by (by rewrite Hxp).
    apply IH; [done..|].
    rewrite length_vsub, length_mulMV. lia.
Qed.
End ParentBlocks.

Section Solve.
Implicit Types (cg : GaussianConditional) (x r : gmap N (list R)).

(** A solved conditional yields exactly its frontal keys. *)
Lemma solve_Ok_dom cg x r :
  solve cg x = Ok r ->
  dom r = list_to_set (frontalKeys cg) /\ NoDup (frontalKeys cg).
Proof.
  unfold solve.
  intros (xps & _ & (rhs & _ & Hseg)%bind_Ok)%bind_Ok.
  destruct (frontalSegments_Ok _ _ _ _ Hseg) as (Hnd & _ & Hdom & _).
  split; [|done]. rewrite Hdom, dom_empty_L. unfold frontalKeys. set_solver.
Qed.

Lemma solveOtherRHS_Ok_dom cg x rhs r :
  solveOtherRHS cg x rhs = Ok r ->
  dom r = list_to_set (frontalKeys cg) /\ NoDup (frontalKeys cg).
Proof.
  unfold solveOtherRHS.
  intros (xps & _ & (b & _ & (y & _ & Hseg)%bind_Ok)%bind_Ok)%bind_Ok.
  destruct (frontalSegments_Ok _ _ _ _ Hseg) as (Hnd & _ & Hdom & _).
  split; [|done]. rewrite Hdom, dom_empty_L. unfold frontalKeys. set_solver.
Qed.

Lemma conditionalHolds_mono cg x x' :
  x ⊆ x' -> conditionalHolds cg x -> conditionalHolds cg x'.
Proof.
  intros Hsub (xf & xps & rhs & Hf & Hp & Hrest).
  exists xf, xps, rhs. split; [by eapply frontalVector_mono|].
  split; [by eapply parentValues_mono|done].
Qed.

(** When every parent has a value the conditional is solved, and the
    solved blocks with the parents' values satisfy it. *)
Lemma solve_succeeds dim cg x :
  wfConditional dim cg -> dimsAgree dim x -> NoDup (frontalKeys cg) ->
  Forall (fun p => is_Some (x !! p)) (parentKeys cg) ->
  exists r, solve cg x = Ok r /\ dimsAgree dim r
    /\ forall x', x ⊆ x' -> r ⊆ x' -> conditionalHolds cg x'.
Proof.
  intros [Hfs Hps [HRrows HRcols] Hupper Hdiag Hd] Hx Hnd Hparents.
  destruct (parentValues_succeeds _ _ Hparents) as [xps Hxps].
  destruct (subtractParents_succeeds dim (frontalDim cg) (parents cg) xps (get_d cg))
    as (rhs & Hrhs & Hlen); [|done|done|].
  { eapply Forall2_impl; [exact (parentValues_Ok _ _ _ Hxps)|].
    intros [k Sj] v Hv. simpl in *. by apply Hx. }
  destruct (frontalSegments_succeeds (frontals cg) (solveUpper (get_R cg) rhs) ∅)
    as [r Hr]; [done|by intros; apply lookup_empty|].
  assert (length (solveUpper (get_R cg) rhs) = frontalDim cg) as Hsol.
  { rewrite length_solveUpper; congruence. }
  exists r. split; [|split].
  - unfold solve. rewrite Hxps. simpl. rewrite Hrhs. simpl. exact Hr.
  - eapply frontalSegments_dims; [exact Hr|exact Hsol|done|]. by intros k v.
  - intros x' Hsub Hr'.
    exists (solveUpper (get_R cg) rhs), xps, rhs.
    split; [|split; [|split; [|split]]]; try done.
    + eapply frontalVector_mono; [exact Hr'|].
      eapply frontalSegments_vector; [exact Hr|exact Hsol].
    + eapply parentValues_mono; [exact Hsub|exact Hxps].
    + rewrite <- mulUpper_mulMV.
      * apply mulUpper_solveUpper; [done|congruence].
      * done.
      * by rewrite Hsol.
      * congruence.
Qed.

(** Under the invariants a conditional can only fail for a missing
    parent. *)
Lemma solve_Err dim cg x e :
  wfConditional dim cg -> dimsAgree dim x -> NoDup (frontalKeys cg) ->
  solve cg x = Err e ->
  exists k, e = MissingParent k /\ k ∈ parentKeys cg /\ x !! k = None.
Proof.
  intros Hwf Hx Hnd Herr.
  destruct (decide (Forall (fun p => is_Some (x !! p)) (parentKeys cg)))
    as [Hall|Hnot].
  - destruct (solve_succeeds dim cg x Hwf Hx Hnd Hall) as (r & Hr & _).
    congruence.
  - unfold solve in Herr.
    apply bind_Err in Herr as [Herr|(xps & Hxps & _)].
    + by apply parentValues_Err in Herr.
    + exfalso. apply Hnot. apply Forall_forall. intros p Hp.
      apply parentValues_Ok in Hxps.
      apply list_elem_of_fmap in Hp as ([k' Sj] & -> & Hin).
      apply list_elem_of_lookup in Hin as [i Hi].
      destruct (Forall2_lookup_l _ _ _ _ _ Hxps Hi) as (v & _ & Hv).
      by exists v.
Qed.

(** A missing parent makes the conditional fail with a missing-parent
    failure, whatever else is wrong with it. *)
Lemma solve_missing cg x p :
  p ∈ parentKeys cg -> x !! p = None ->
  exists k, solve cg x = Err (MissingParent k).
Proof.
  intros Hin Hnone.
  destruct (parentValues_missing _ _ _ Hin Hnone) as [k Hk].
  exists k. unfold solve. by rewrite Hk.
Qed.
End Solve.

(** ** The solve engine *)

Section SolveEngine.
Implicit Types (bn : list GaussianConditional) (cg : GaussianConditional).
Implicit Types (s soln x r : gmap N (list R)).

Lemma networkFrontalKeys_cons cg bn :
  networkFrontalKeys (cg :: bn) = frontalKeys cg ++ networkFrontalKeys bn.
Proof. reflexivity. Qed.

Lemma networkFrontalKeys_app bn1 bn2 :
  networkFrontalKeys (bn1 ++ bn2)
  = networkFrontalKeys bn1 ++ networkFrontalKeys bn2.
Proof. unfold networkFrontalKeys. by rewrite map_app, concat_app. Qed.

Lemma optimizeStep_Ok soln cg x :
  optimizeStep soln cg = Ok x <->
  exists r, solve cg soln = Ok r /\ dom soln ## dom r /\ x = soln ∪ r.
Proof.
  unfold optimizeStep. rewrite bind_Ok.
  split; intros (r & Hr & Hins); exists r; (split; [done|]);
    by apply insertValues_Ok.
Qed.

(** All or nothing: a returned assignment holds the supplied values and
    every frontal key of the network, each inserted exactly once. *)
Lemma optimize_Ok_dom bn : forall s x,
  optimize bn s = Ok x ->
  dom x = dom s ∪ list_to_set (networkFrontalKeys bn)
  /\ s ⊆ x
  /\ NoDup (networkFrontalKeys bn)
  /\ (forall k, k ∈ networkFrontalKeys bn -> k ∉ dom s).
Proof.
  induction bn as [|cg rest IH]; intros s x.
  - intros [= <-]. split; [set_solver|]. split; [done|].
    split; [constructor|]. set_solver.
  - rewrite optimize_cons.
    intros (soln & Hrest & (r & Hr & Hdisj & ->)%optimizeStep_Ok)%bind_Ok.
    destruct (IH _ _ Hrest) as (Hdom & Hsub & Hnd & Hfresh).
    destruct (solve_Ok_dom _ _ _ Hr) as [Hdomr Hndr].
    rewrite networkFrontalKeys_cons.
    split; [|split; [|split]].
    + rewrite dom_union_L, Hdom, Hdomr. set_solver.
    + etrans; [exact Hsub|]. apply map_union_subseteq_l.
    + apply NoDup_app. split; [done|]. split; [|done].
      intros k Hk Hk'. apply (Hdisj k); [|set_solver].
      rewrite Hdom. set_solver.
    + intros k [Hk|Hk]%elem_of_app; [|by apply Hfresh].
      intros Hs. apply (Hdisj k); [|set_solver].
      rewrite Hdom. set_solver.
Qed.

Lemma dimsAgree_union dim x r :
  dimsAgree dim x -> dimsAgree dim r -> dimsAgree dim (x ∪ r).
Proof.
  intros Hx Hr k v [Hk|[_ Hk]]%lookup_union_Some_raw; eauto.
Qed.

(** A solved conditional keeps the block lengths and is satisfied by every
    assignment that extends its inputs and outputs. *)
Lemma solve_Ok_holds dim cg x r :
  wfConditional dim cg -> dimsAgree dim x -> solve cg x = Ok r ->
  dimsAgree dim r
  /\ forall x', x ⊆ x' -> r ⊆ x' -> conditionalHolds cg x'.
Proof.
  intros Hwf Hx Hr.
  destruct (solve_Ok_dom _ _ _ Hr) as [_ Hnd].
  assert (Forall (fun p => is_Some (x !! p)) (parentKeys cg)) as Hall.
  { unfold solve in Hr. apply bind_Ok in Hr as (xps & Hxps & _).
    apply parentValues_Ok in Hxps. apply Forall_forall. intros p Hp.
    apply list_elem_of_fmap in Hp as ([k' Sj] & -> & Hin).
    apply list_elem_of_lookup in Hin as [i Hi].
    destruct (Forall2_lookup_l _ _ _ _ _ Hxps Hi) as (v & _ & Hv).
    by exists v. }
  destruct (solve_succeeds dim cg x Hwf Hx Hnd Hall) as (r' & Hr' & Hdims & Hholds).
  assert (r' = r) as -> by congruence. done.
Qed.

Lemma optimize_Ok_holds dim bn : forall s x,
  Forall (wfConditional dim) bn -> dimsAgree dim s ->
  optimize bn s = Ok x ->
  dimsAgree dim x /\ Forall (fun cg => conditionalHolds cg x) bn.
Proof.
  induction bn as [|cg rest IH]; intros s x Hwf Hs.
  - intros [= <-]. by split.
  - rewrite optimize_cons.
    intros (soln & Hrest & (r & Hr & Hdisj & ->)%optimizeStep_Ok)%bind_Ok.
    apply Forall_cons in Hwf as [Hcg Hwf].
    destruct (IH _ _ Hwf Hs Hrest) as [Hsoln Hholds].
    destruct (solve_Ok_holds dim _ _ _ Hcg Hsoln Hr) as [Hdr Hcgx].
    assert (soln ##ₘ r) as Hmd by by apply map_disjoint_dom.
    split; [by apply dimsAgree_union|]. constructor.
    + apply Hcgx; [apply map_union_subseteq_l|by apply map_union_subseteq_r].
    + eapply Forall_impl; [exact Hholds|]. intros cg'.
      apply conditionalHolds_mono, map_union_subseteq_l.
Qed.

(** The network is solved whenever its invariants hold and every parent
    is resolvable. *)
Lemma optimize_succeeds dim bn : forall s,
  Forall (wfConditional dim) bn -> dimsAgree dim s ->
  NoDup (networkFrontalKeys bn) ->
  (forall k, k ∈ networkFrontalKeys bn -> k ∉ dom s) ->
  resolvable bn (dom s) ->
  exists x, optimize bn s = Ok x.
Proof.
  induction bn as [|cg rest IH]; intros s Hwf Hs Hnd Hfresh Hres.
  - by exists s.
  - apply Forall_cons in Hwf as [Hcg Hwf].
    rewrite networkFrontalKeys_cons in Hnd, Hfresh.
    apply NoDup_app in Hnd as (Hndcg & Hcross & Hndrest).
    destruct Hres as [Hparents Hres].
    destruct (IH s Hwf Hs Hndrest) as [soln Hsoln];
      [intros k Hk; apply Hfresh; set_solver|done|].
    destruct (optimize_Ok_dom _ _ _ Hsoln) as (Hdom & _ & _ & _).
    destruct (optimize_Ok_holds dim _ _ _ Hwf Hs Hsoln) as [Hdims _].
    destruct (solve_succeeds dim cg soln Hcg Hdims Hndcg) as (r & Hr & _).
    { eapply Forall_impl; [exact Hparents|]. intros p Hp. simpl in Hp.
      apply elem_of_dom. rewrite Hdom. set_solver. }
    destruct (solve_Ok_dom _ _ _ Hr) as [Hdomr _].
    exists (soln ∪ r). rewrite optimize_cons, Hsoln. simpl.
    apply optimizeStep_Ok. exists r. split; [done|]. split; [|done].
    rewrite Hdom, Hdomr. intros k Hk Hk'.
    apply elem_of_list_to_set in Hk'.
    apply elem_of_union in Hk as [Hk|Hk%elem_of_list_to_set].
    + apply (Hfresh k); [set_solver|done].
    + by apply (Hcross k).
Qed.
End SolveEngine.

(** ** How the solve engine fails *)

Section SolveFailures.
Implicit Types (bn : list GaussianConditional) (cg : GaussianConditional).
Implicit Types (s soln x r : gmap N (list R)).

(** The network is [pre ++ cg :: post]: the loop visits [post] first,
    then [cg], then [pre]. *)
Lemma optimize_split pre cg post s :
  optimize (pre ++ cg :: post) s
  = optimize post s ≫= fun soln =>
      optimizeStep soln cg ≫= forEach optimizeStep (rev pre).
Proof.
  unfold optimize. rewrite rev_app_distr. simpl rev.
  rewrite <- app_assoc. rewrite forEach_app. simpl. done.
Qed.

(** When the invariants hold, a failure of the network is a missing
    parent. *)
Lemma optimize_Err_missing dim bn : forall s e,
  Forall (wfConditional dim) bn -> dimsAgree dim s ->
  NoDup (networkFrontalKeys bn) ->
  (forall k, k ∈ networkFrontalKeys bn -> k ∉ dom s) ->
  optimize bn s = Err e ->
  exists k, e = MissingParent k.
Proof.
  induction bn as [|cg rest IH]; intros s e Hwf Hs Hnd Hfresh; [done|].
  apply Forall_cons in Hwf as [Hcg Hwf].
  rewrite networkFrontalKeys_cons in Hnd, Hfresh.
  apply NoDup_app in Hnd as (Hndcg & Hcross & Hndrest).
  rewrite optimize_cons.
  intros [Hrest|(soln & Hsoln & Hstep)]%bind_Err.
  - eapply IH; [done..| |exact Hrest]. intros k Hk. apply Hfresh. set_solver.
  - destruct (optimize_Ok_dom _ _ _ Hsoln) as (Hdom & _ & _ & _).
    destruct (optimize_Ok_holds dim _ _ _ Hwf Hs Hsoln) as [Hdims _].
    unfold optimizeStep in Hstep.
    apply bind_Err in Hstep as [Herr|(r & Hr & Hins)].
    + destruct (solve_Err dim _ _ _ Hcg Hdims Hndcg Herr) as (k & -> & _).
      by exists k.
    + exfalso. apply insertValues_Err in Hins as [Hnot _]. apply Hnot.
      destruct (solve_Ok_dom _ _ _ Hr) as [Hdomr _].
      rewrite Hdom, Hdomr. intros k Hk Hk'.
      apply elem_of_list_to_set in Hk'.
      apply elem_of_union in Hk as [Hk|Hk%elem_of_list_to_set].
      * apply (Hfresh k); [set_solver|done].
      * by apply (Hcross k).
Qed.

(** With every parent present and the block lengths right, a conditional
    can only fail on a duplicate frontal key. *)
Lemma solve_Err_duplicate dim cg x e :
  wfConditional dim cg -> dimsAgree dim x ->
  Forall (fun p => is_Some (x !! p)) (parentKeys cg) ->
  solve cg x = Err e -> e = DuplicateVariable.
Proof.
  intros [Hfs Hps HR Hupper Hdiag Hd] Hx Hall. unfold solve.
  destruct (parentValues_succeeds _ _ Hall) as [xps Hxps]. rewrite Hxps. simpl.
  destruct (subtractParents_succeeds dim (frontalDim cg) (parents cg) xps (get_d cg))
    as (rhs & Hrhs & Hlen); [|done|done|].
  { eapply Forall2_impl; [exact (parentValues_Ok _ _ _ Hxps)|].
    intros [k Sj] v Hv. simpl in *. by apply Hx. }
  rewrite Hrhs. simpl. apply frontalSegments_Err.
Qed.

(** When the invariants other than the distinctness of the frontal keys
    hold and the parents are resolvable, a failure of the network is a
    duplicate variable. *)
Lemma optimize_Err_duplicate dim bn : forall s e,
  Forall (wfConditional dim) bn -> dimsAgree dim s ->
  resolvable bn (dom s) ->
  optimize bn s = Err e -> e = DuplicateVariable.
Proof.
  induction bn as [|cg rest IH]; intros s e Hwf Hs Hres; [done|].
  apply Forall_cons in Hwf as [Hcg Hwf]. destruct Hres as [Hparents Hres].
  rewrite optimize_cons.
  intros [Hrest|(soln & Hsoln & Hstep)]%bind_Err.
  - by eapply IH.
  - destruct (optimize_Ok_dom _ _ _ Hsoln) as (Hdom & _ & _ & _).
    destruct (optimize_Ok_holds dim _ _ _ Hwf Hs Hsoln) as [Hdims _].
    unfold optimizeStep in Hstep.
    apply bind_Err in Hstep as [Herr|(r & Hr & Hins)].
    + eapply (solve_Err_duplicate dim); [done|exact Hdims| |exact Herr].
      eapply Forall_impl; [exact Hparents|]. intros p Hp. simpl in Hp.
      apply elem_of_dom. rewrite Hdom. set_solver.
    + by apply insertValues_Err in Hins as [_ ->].
Qed.
End SolveFailures.

(** ** Determinant engine *)

Section DoubleDeterminant.
Import PrimFloat.

Lemma Double_logDeterminant_middle `{L : Double.Libm} pre cg post :
  Double.logDeterminant (pre ++ cg :: post)
  = fold_left Double.logDeterminantStep post
      (Double.logDeterminant pre
       + Double.sum (map Double.log (Double.whitenedDiagonal cg)))%float.
Proof.
  unfold Double.logDeterminant. rewrite fold_left_app. simpl. f_equal.
  unfold Double.logDeterminantStep, Double.whitenedDiagonal, Double.unaryExpr.
  by destruct (Double.get_model cg).
Qed.

(** The double results on the chain of the specification, with and
    without the noise model of scale 2 on conditional A, and on the
    single-row conditional with entry 3. *)
Example Double_logDeterminant_chain :
  Double.logDeterminant (L := Double.libmSamples) Double.chain
  = 0x1.62e42fefa39efp-1%float
  /\ Double.logDeterminant (L := Double.libmSamples)
       [Double.withModel Double.condA Double.sigma2; Double.condB]
     = 0%float.
Proof. split; reflexivity. Qed.

Example Double_logDeterminant_entry3 :
  Double.logDeterminant (L := Double.libmSamples) [Double.singleRow 3]
  = 0x1.193ea7aad030bp+0%float
  /\ Double.logDeterminant (L := Double.libmSamples)
       [Double.withModel (Double.singleRow 3) Double.sigma2]
     = 0x1.9f323ecbf984cp-2%float.
Proof. split; reflexivity. Qed.

(** On doubles too the network of zero conditionals has log-determinant 0,
    and its determinant is [exp 0]. *)
Example Double_empty_network (L : Double.Libm) :
  Double.logDeterminant [] = 0%float
  /\ Double.determinant [] = Double.exp 0%float.
Proof. split; reflexivity. Qed.

(** Whatever else the C library's [log] does, its values at [1.5], [2] and
    [3] decide the case of the single-row conditional with entry 3. *)
Lemma Double_logDeterminant_entry3_any_libm (L : Double.Libm) :
  Double.log 1.5 = 0x1.9f323ecbf984cp-2%float ->
  Double.log 2 = 0x1.62e42fefa39efp-1%float ->
  Double.log 3 = 0x1.193ea7aad030bp+0%float ->
  Double.logDeterminant [Double.withModel (Double.singleRow 3) Double.sigma2]
  <> (Double.logDeterminant [Double.singleRow 3] - Double.log 2)%float.
Proof.
  intros H15 H2 H3. unfold Double.logDeterminant. simpl.
  unfold Double.logDeterminantStep. simpl.
  change (3 / 2)%float with 1.5%float. rewrite H15, H2, H3.
  intros H.
  apply (f_equal (fun v => (v =? 0x1.9f323ecbf984cp-2)%float)) in H.
  vm_compute in H. discriminate.
Qed.

(** C2, as the specification states it: attaching a noise model of scale 2
    to a single-row conditional changes [logDeterminant()] by exactly
    [-log(2)].  It fails on the single-row conditional with diagonal entry
    3: the doubles [log(1.5)] and [log(3) - log(2)] differ in the last
    place. *)
Lemma logDeterminant_sigma2_not_exact :
  (Double.logDeterminant (L := Double.libmSamples)
     [Double.withModel (Double.singleRow 3) Double.sigma2]
   - Double.logDeterminant (L := Double.libmSamples) [Double.singleRow 3])%float
  <> (- Double.log (Libm := Double.libmSamples) 2)%float
  /\ Double.logDeterminant (L := Double.libmSamples)
       [Double.withModel (Double.singleRow 3) Double.sigma2]
     <> (Double.logDeterminant (L := Double.libmSamples) [Double.singleRow 3]
         - Double.log (Libm := Double.libmSamples) 2)%float.
Proof.
  split; intros H.
  - apply (f_equal (fun v =>
      (v =? - Double.log (Libm := Double.libmSamples) 2)%float)) in H.
    vm_compute in H. discriminate.
  - apply (f_equal (fun v =>
      (v =? 0x1.9f323ecbf984cp-2)%float)) in H.
    vm_compute in H. discriminate.
Qed.

(** C2, amended: [logDeterminant()] is the running double sum, in sequence
    order, of each conditional's sum of the logarithms of its R-diagonal
    entries, divided by the per-row scales when the conditional carries a
    noise model and raw when it carries none; attaching a noise model of
    scale 2 to a single-row conditional with entry [r] replaces its term
    [log r] by [log (r / 2)], and on conditional A of the chain ([r = 2])
    this changes [logDeterminant()] by exactly [-log(2)]. *)
Theorem logDeterminant_double_running_sum :
  (forall (L : Double.Libm) bn cg,
     Double.logDeterminant [] = 0%float
     /\ Double.logDeterminant (bn ++ [cg])
        = (Double.logDeterminant bn
           + Double.sum (map Double.log (Double.whitenedDiagonal cg)))%float)
  /\ (forall cg,
        match Double.get_model cg with
        | Some model =>
            Double.whitenedDiagonal cg
            = Double.vdiv (Double.diagonal (Double.get_R cg)) (Double.sigmas model)
        | None => Double.whitenedDiagonal cg = Double.diagonal (Double.get_R cg)
        end)
  /\ (forall (L : Double.Libm) pre post cg r,
        Double.diagonal (Double.get_R cg) = [r] ->
        Double.get_model cg = None ->
        Double.logDeterminant (pre ++ cg :: post)
        = fold_left Double.logDeterminantStep post
            (Double.logDeterminant pre + Double.log r)%float
        /\ Double.logDeterminant (pre ++ Double.withModel cg Double.sigma2 :: post)
           = fold_left Double.logDeterminantStep post
               (Double.logDeterminant pre + Double.log (r / 2))%float)
  /\ (Double.logDeterminant (L := Double.libmSamples)
        [Double.withModel Double.condA Double.sigma2; Double.condB]
      - Double.logDeterminant (L := Double.libmSamples) Double.chain)%float
     = (- Double.log (Libm := Double.libmSamples) 2)%float.
Proof.
  split; [|split; [|split]].
  - intros L bn cg. split; [reflexivity|].
    by rewrite (Double_logDeterminant_middle bn cg []).
  - intros cg. unfold Double.whitenedDiagonal.
    by destruct (Double.get_model cg).
  - intros L pre post cg r Hdiag Hnone.
    rewrite !Double_logDeterminant_middle.
    unfold Double.whitenedDiagonal. simpl. rewrite Hnone, Hdiag. by split.
  - reflexivity.
Qed.

Lemma logDeterminant_double_running_sum_witness :
  Double.logDeterminant (L := Double.libmSamples) ([] ++ Double.condA :: [Double.condB])
  = fold_left (Double.logDeterminantStep (L := Double.libmSamples)) [Double.condB]
      (Double.logDeterminant (L := Double.libmSamples) []
       + Double.log (Libm := Double.libmSamples) 2)%float
  /\ Double.logDeterminant (L := Double.libmSamples)
       ([] ++ Double.withModel Double.condA Double.sigma2 :: [Double.condB])
     = fold_left (Double.logDeterminantStep (L := Double.libmSamples)) [Double.condB]
         (Double.logDeterminant (L := Double.libmSamples) []
          + Double.log (Libm := Double.libmSamples) (2 / 2))%float.
Proof.
  apply (proj1 (proj2 (proj2 logDeterminant_double_running_sum))
           Double.libmSamples [] [Double.condB] Double.condA 2%float).
  - reflexivity.
  - reflexivity.
Defined.
End DoubleDeterminant.

(** C3: [determinant()] is [exp(logDeterminant())] on every network. *)
Theorem determinant_exp_logDeterminant (bn : list GaussianConditional) :
  determinant bn = exp (logDeterminant bn).
Proof. reflexivity. Qed.

(** C10: on the network of zero conditionals [logDeterminant()] is 0 and
    [determinant()] is 1. *)
Theorem empty_network_determinant :
  logDeterminant [] = 0%R /\ determinant [] = 1%R.
Proof.
  split; [reflexivity|].
  unfold determinant, logDeterminant. simpl. apply exp_0.
Qed.

(** ** The chain of the specification, solved *)

Section ChainSolved.
Import Chain.

Lemma solve_condB x : solve condB x = Ok {[x2 := [3%R]]}.
Proof.
  unfold solve. simpl. unfold insertKey. rewrite lookup_empty. simpl.
  rewrite insert_empty. do 3 f_equal. lra.
Qed.

Lemma solve_condA x v :
  x !! x2 = Some [v] -> solve condA x = Ok {[x1 := [((5 - v) / 2)%R]]}.
Proof.
  intros Hv. unfold solve. simpl. unfold lookupKey. rewrite Hv. simpl.
  unfold insertKey. rewrite lookup_empty. simpl.
  rewrite insert_empty. do 3 f_equal. lra.
Qed.

Lemma optimize_chain :
  optimize0 chain = Ok (<[x1 := [1%R]]> {[x2 := [3%R]]}).
Proof.
  unfold optimize0, chain. rewrite !optimize_cons.
  change (optimize [] ∅) with (Ok (∅ : gmap N (list R))). simpl.
  assert (optimizeStep ∅ condB = Ok {[x2 := [3%R]]}) as ->.
  { apply optimizeStep_Ok. exists {[x2 := [3%R]]}.
    split; [apply solve_condB|]. split; [set_solver|].
    by rewrite (left_id_L ∅ (∪)). }
  simpl. apply optimizeStep_Ok. exists {[x1 := [1%R]]}. split; [|split].
  - rewrite (solve_condA _ 3%R) by apply lookup_singleton_eq.
    do 3 f_equal. lra.
  - rewrite !dom_singleton_L. unfold x1, x2. set_solver.
  - rewrite insert_union_singleton_l. apply map_union_comm.
    apply map_disjoint_dom. rewrite !dom_singleton_L. unfold x1, x2. set_solver.
Qed.
End ChainSolved.

Section ChainInvariants.
Import Chain.

Lemma condA_wf : wfConditional (fun _ => 1%nat) condA.
Proof.
  constructor; simpl.
  - repeat constructor.
  - repeat constructor.
  - split; [reflexivity|repeat constructor].
  - by split.
  - repeat constructor. simpl. lra.
  - reflexivity.
Qed.

Lemma condB_wf : wfConditional (fun _ => 1%nat) condB.
Proof.
  constructor; simpl.
  - repeat constructor.
  - constructor.
  - split; [reflexivity|repeat constructor].
  - by split.
  - repeat constructor. simpl. lra.
  - reflexivity.
Qed.

Lemma chain_wf : Forall (wfConditional (fun _ => 1%nat)) chain.
Proof.
  constructor; [apply condA_wf|]. constructor; [apply condB_wf|]. constructor.
Qed.

Lemma dimsAgree_empty dim : dimsAgree dim ∅.
Proof. intros k v. by rewrite lookup_empty. Qed.

Lemma dimsAgree_singleton dim k v :
  length v = dim k -> dimsAgree dim {[k := v]}.
Proof. intros Hlen k' v' [<- <-]%lookup_singleton_Some. done. Qed.

Lemma optimize_condB : optimize [condB] ∅ = Ok {[x2 := [3%R]]}.
Proof.
  rewrite optimize_cons.
  change (optimize [] ∅) with (Ok (∅ : gmap N (list R))). simpl.
  apply optimizeStep_Ok. exists {[x2 := [3%R]]}.
  split; [apply solve_condB|]. split; [set_solver|].
  by rewrite (left_id_L ∅ (∪)).
Qed.
(** The chain reversed: conditional A is visited first and its parent has
    no value yet. *)
Example optimize_reversed_chain :
  optimize0 (rev chain) = Err (MissingParent x2).
Proof.
  unfold optimize0, optimize. simpl. unfold optimizeStep, solve. simpl.
  unfold lookupKey. by rewrite lookup_empty.
Qed.
End ChainInvariants.

(** ** The claims on the solve engine *)

(** C1: for a network that keeps its invariants (block shapes, non-singular
    triangular blocks, frontal keys distinct and not among the supplied
    keys) and whose parent keys are all resolvable by later-positioned
    conditionals or by the supplied assignment, [optimize] returns a
    complete assignment (the supplied values and every frontal key) that
    satisfies every conditional: [x_f = R^-1 (y - sum_j S_j x_pj)]; on the
    two-conditional chain, [optimize()] yields [x2 = 3] and [x1 = 1]. *)
Theorem optimize_solves_network :
  (forall dim bn (s : gmap N (list R)),
     Forall (wfConditional dim) bn -> dimsAgree dim s ->
     NoDup (networkFrontalKeys bn) ->
     (forall k, k ∈ networkFrontalKeys bn -> k ∉ dom s) ->
     resolvable bn (dom s) ->
     exists x, optimize bn s = Ok x
       /\ dom x = dom s ∪ list_to_set (networkFrontalKeys bn)
       /\ s ⊆ x
       /\ Forall (fun cg => conditionalHolds cg x) bn)
  /\ optimize0 Chain.chain
     = Ok (<[Chain.x1 := [1%R]]> {[Chain.x2 := [3%R]]}).
Proof.
  split; [|exact optimize_chain].
  intros dim bn s Hwf Hs Hnd Hfresh Hres.
  destruct (optimize_succeeds dim bn s Hwf Hs Hnd Hfresh Hres) as [x Hx].
  destruct (optimize_Ok_dom _ _ _ Hx) as (Hdom & Hsub & _ & _).
  destruct (optimize_Ok_holds dim _ _ _ Hwf Hs Hx) as [_ Hholds].
  by exists x.
Qed.

Lemma optimize_solves_network_witness :
  exists x, optimize Chain.chain ∅ = Ok x
    /\ dom x = dom (∅ : gmap N (list R)) ∪ list_to_set (networkFrontalKeys Chain.chain)
    /\ ∅ ⊆ x
    /\ Forall (fun cg => conditionalHolds cg x) Chain.chain.
Proof.
  apply (proj1 optimize_solves_network (fun _ => 1%nat) Chain.chain ∅).
  - exact chain_wf.
  - apply dimsAgree_empty.
  - apply (bool_decide_unpack _). vm_compute. exact I.
  - intros k _. rewrite dom_empty_L. apply not_elem_of_empty.
  - simpl. split; [|split; [|exact I]].
    + constructor; [|constructor]. right. apply list_elem_of_here.
    + constructor.
Defined.

(** C5: when some conditional has a parent key that is neither a frontal
    key of a later-positioned conditional nor supplied, [optimize] returns
    no assignment; it fails, and the failure is a missing parent when the
    conditionals visited before keep the network invariants, as in a valid
    network whose sequence has been reversed. *)
Theorem optimize_unresolvable_parent pre cg post p (s : gmap N (list R)) :
  p ∈ parentKeys cg -> p ∉ dom s -> p ∉ networkFrontalKeys post ->
  (exists e, optimize (pre ++ cg :: post) s = Err e)
  /\ (forall dim,
        Forall (wfConditional dim) post -> dimsAgree dim s ->
        NoDup (networkFrontalKeys post) ->
        (forall k, k ∈ networkFrontalKeys post -> k ∉ dom s) ->
        exists k, optimize (pre ++ cg :: post) s = Err (MissingParent k)).
Proof.
  intros Hp Hs Hpost. rewrite optimize_split.
  destruct (optimize post s) as [soln|e] eqn:Hsoln; simpl.
  - destruct (optimize_Ok_dom _ _ _ Hsoln) as (Hdom & _ & _ & _).
    destruct (solve_missing cg soln p Hp) as [k Hk].
    { apply not_elem_of_dom. rewrite Hdom. set_solver. }
    unfold optimizeStep. rewrite Hk. simpl. split; [by eexists|].
    intros. by exists k.
  - split; [by exists e|]. intros dim Hwf Hdims Hnd Hfresh.
    destruct (optimize_Err_missing dim _ _ _ Hwf Hdims Hnd Hfresh Hsoln) as [k ->].
    by exists k.
Qed.

Lemma optimize_unresolvable_parent_witness :
  exists k, optimize0 (rev Chain.chain) = Err (MissingParent k).
Proof.
  refine (proj2 (optimize_unresolvable_parent
                   [Chain.condB] Chain.condA [] Chain.x2 ∅ _ _ _)
                (fun _ => 1%nat) _ _ _ _).
  - apply list_elem_of_here.
  - rewrite dom_empty_L. apply not_elem_of_empty.
  - apply not_elem_of_nil.
  - constructor.
  - apply dimsAgree_empty.
  - constructor.
  - intros k Hk. by apply elem_of_nil in Hk.
Defined.

(** C6: inserting a solved frontal key that is already in the growing
    assignment is a duplicate-variable failure of the whole operation (two
    conditionals sharing a frontal key, or a frontal key among the supplied
    keys), and the operation is all or nothing: a returned assignment holds
    the supplied values and every frontal key of the network. *)
Theorem optimize_duplicate_all_or_nothing :
  (forall pre cg post (s soln r : gmap N (list R)),
     optimize post s = Ok soln -> solve cg soln = Ok r ->
     (exists k, k ∈ dom r /\ k ∈ dom soln) ->
     optimize (pre ++ cg :: post) s = Err DuplicateVariable)
  /\ (forall dim bn (s : gmap N (list R)),
        Forall (wfConditional dim) bn -> dimsAgree dim s ->
        resolvable bn (dom s) ->
        (~ NoDup (networkFrontalKeys bn)
         \/ exists k, k ∈ networkFrontalKeys bn /\ k ∈ dom s) ->
        optimize bn s = Err DuplicateVariable)
  /\ (forall bn (s x : gmap N (list R)),
        optimize bn s = Ok x ->
        dom x = dom s ∪ list_to_set (networkFrontalKeys bn) /\ s ⊆ x).
Proof.
  split; [|split].
  - intros pre cg post s soln r Hsoln Hr (k & Hkr & Hks).
    rewrite optimize_split, Hsoln. simpl. unfold optimizeStep. rewrite Hr. simpl.
    assert (insertValues soln r = Err DuplicateVariable) as ->; [|done].
    apply insertValues_Err. split; [|done]. intros Hdisj. by apply (Hdisj k).
  - intros dim bn s Hwf Hs Hres Hbad.
    destruct (optimize bn s) as [x|e] eqn:Hx.
    + destruct (optimize_Ok_dom _ _ _ Hx) as (_ & _ & Hnd & Hfresh).
      destruct Hbad as [Hbad|(k & Hk & Hks)]; [done|]. by destruct (Hfresh k Hk).
    + by rewrite (optimize_Err_duplicate dim _ _ _ Hwf Hs Hres Hx).
  - intros bn s x Hx.
    by destruct (optimize_Ok_dom _ _ _ Hx) as (Hdom & Hsub & _ & _).
Qed.

Lemma optimize_duplicate_all_or_nothing_witness :
  optimize [Chain.condB; Chain.condB] ∅ = Err DuplicateVariable
  /\ optimize [Chain.condB] {[Chain.x2 := [7%R]]} = Err DuplicateVariable.
Proof.
  split.
  - apply (proj1 optimize_duplicate_all_or_nothing
             [] Chain.condB [Chain.condB] ∅ {[Chain.x2 := [3%R]]} {[Chain.x2 := [3%R]]}).
    + exact optimize_condB.
    + apply solve_condB.
    + exists Chain.x2. rewrite dom_singleton_L. split; apply elem_of_singleton_2; reflexivity.
  - apply (proj1 (proj2 optimize_duplicate_all_or_nothing)
             (fun _ => 1%nat) [Chain.condB] {[Chain.x2 := [7%R]]}).
    + constructor; [apply condB_wf|constructor].
    + by apply dimsAgree_singleton.
    + simpl. split; [constructor|exact I].
    + right. exists Chain.x2. split.
      * simpl. apply list_elem_of_here.
      * rewrite dom_singleton_L. apply elem_of_singleton_2. reflexivity.
Defined.

(** C8: on the network of zero conditionals [optimize] returns the supplied
    assignment unchanged, whatever it holds. *)
Theorem optimize_empty_network (s : gmap N (list R)) : optimize [] s = Ok s.
Proof. reflexivity. Qed.

(** ** General back-substitution *)

Section BackSubstitute.
Implicit Types (bn cgs : list GaussianConditional).
Implicit Types (rhs acc res : gmap N (list R)).

Lemma backSubstituteStep_Ok rhs acc cg res :
  backSubstituteStep rhs acc cg = Ok res <->
  exists r, solveOtherRHS cg acc rhs = Ok r /\ dom acc ## dom r /\ res = acc ∪ r.
Proof.
  unfold backSubstituteStep. rewrite bind_Ok.
  split; intros (r & Hr & Hins); exists r; (split; [done|]);
    by apply insertValues_Ok.
Qed.

(** The loop only adds the frontal keys of the conditionals it visits. *)
Lemma backSubstitute_loop_dom rhs cgs : forall acc res,
  forEach (backSubstituteStep rhs) cgs acc = Ok res ->
  dom res = dom acc ∪ list_to_set (networkFrontalKeys cgs).
Proof.
  induction cgs as [|cg cgs IH]; intros acc res; simpl.
  - intros [= <-]. set_solver.
  - intros (acc' & (r & Hr & _ & ->)%backSubstituteStep_Ok & Hrest)%bind_Ok.
    destruct (solveOtherRHS_Ok_dom _ _ _ _ Hr) as [Hdomr _].
    rewrite (IH _ _ Hrest), dom_union_L, Hdomr, networkFrontalKeys_cons.
    set_solver.
Qed.

Lemma networkFrontalKeys_rev bn :
  list_to_set (C := gset N) (networkFrontalKeys (rev bn))
  = list_to_set (networkFrontalKeys bn).
Proof.
  induction bn as [|cg bn IH]; [done|]. simpl rev.
  rewrite networkFrontalKeys_app, !networkFrontalKeys_cons.
  change (networkFrontalKeys []) with (@nil N). rewrite app_nil_r.
  rewrite !list_to_set_app_L, IH. apply (comm_L (∪)).
Qed.
End BackSubstitute.

Section ChainBackSubstitute.
Import Chain.

Lemma backSubstitute_chain rhs a b :
  rhs !! x1 = Some [a] -> rhs !! x2 = Some [b] ->
  backSubstitute chain rhs
  = Ok (<[x1 := [((a - b) / 2)%R]]> {[x2 := [b]]}).
Proof.
  intros Ha Hb. unfold backSubstitute, chain. simpl rev. simpl forEach.
  assert (backSubstituteStep rhs ∅ condB = Ok {[x2 := [b]]}) as ->.
  { apply backSubstituteStep_Ok. exists {[x2 := [b]]}. split; [|split].
    - unfold solveOtherRHS. simpl. unfold lookupKey. rewrite Hb. simpl.
      unfold insertKey. rewrite lookup_empty. simpl.
      rewrite insert_empty. do 3 f_equal. lra.
    - set_solver.
    - by rewrite (left_id_L ∅ (∪)). }
  simpl.
  assert (backSubstituteStep rhs {[x2 := [b]]} condA
          = Ok (<[x1 := [((a - b) / 2)%R]]> {[x2 := [b]]})) as ->; [|done].
  apply backSubstituteStep_Ok. exists {[x1 := [((a - b) / 2)%R]]}.
  split; [|split].
  - unfold solveOtherRHS. simpl. unfold lookupKey.
    rewrite lookup_singleton_eq, Ha. simpl.
    unfold insertKey. rewrite lookup_empty. simpl.
    rewrite insert_empty. do 3 f_equal. lra.
  - rewrite !dom_singleton_L. unfold x1, x2. set_solver.
  - rewrite insert_union_singleton_l. apply map_union_comm.
    apply map_disjoint_dom. rewrite !dom_singleton_L. unfold x1, x2. set_solver.
Qed.
End ChainBackSubstitute.

(** C9: [backSubstitute(rhs)] starts from the empty assignment and inserts
    only the solved frontal blocks: the keys of the returned assignment are
    exactly the frontal keys of the conditionals, and an entry of [rhs]
    under a key that is frontal of no conditional does not appear in it. *)
Theorem backSubstitute_keys bn (rhs result : gmap N (list R)) :
  backSubstitute bn rhs = Ok result ->
  dom result = list_to_set (networkFrontalKeys bn)
  /\ (forall k, k ∈ dom rhs -> k ∉ networkFrontalKeys bn -> result !! k = None).
Proof.
  intros Hres. unfold backSubstitute in Hres.
  apply backSubstitute_loop_dom in Hres.
  rewrite dom_empty_L, (left_id_L ∅ (∪)), networkFrontalKeys_rev in Hres.
  split; [done|]. intros k _ Hk. apply not_elem_of_dom. rewrite Hres.
  by rewrite elem_of_list_to_set.
Qed.

Lemma backSubstitute_keys_witness :
  dom (<[Chain.x1 := [1%R]]> ({[Chain.x2 := [3%R]]} : gmap N (list R)))
  = list_to_set (networkFrontalKeys Chain.chain)
  /\ (forall k,
        k ∈ dom (<[Chain.x1 := [5%R]]> (<[Chain.x2 := [3%R]]> ({[7%N := [9%R]]} : gmap N (list R)))) ->
        k ∉ networkFrontalKeys Chain.chain ->
        (<[Chain.x1 := [1%R]]> ({[Chain.x2 := [3%R]]} : gmap N (list R))) !! k = None).
Proof.
  apply (backSubstitute_keys Chain.chain
           (<[Chain.x1 := [5%R]]> (<[Chain.x2 := [3%R]]> {[7%N := [9%R]]}))).
  rewrite (backSubstitute_chain _ 5%R 3%R).
  - do 4 f_equal. lra.
  - apply lookup_insert_eq.
  - rewrite lookup_insert_ne by done. apply lookup_insert_eq.
Defined.

(** ** Transpose back-substitution *)

Section TransposeSolve.
Implicit Types (bn : list GaussianConditional) (cg : GaussianConditional).
Implicit Types (gx gy : gmap N (list R)).

Lemma networkParentKeys_cons cg bn :
  networkParentKeys (cg :: bn) = parentKeys cg ++ networkParentKeys bn.
Proof. reflexivity. Qed.

Lemma updateParents_frame ps z : forall gy gy' k,
  updateParents ps z gy = Ok gy' -> k ∉ ps.*1 -> gy' !! k = gy !! k.
Proof.
  induction ps as [|[p Sj] ps IH]; intros gy gy' k.
  - by intros [= <-].
  - rewrite fmap_cons. simpl.
    intros (v & _ & Hrest)%bind_Ok [Hne Hk]%not_elem_of_cons.
    case_decide; [|done].
    rewrite (IH _ _ _ Hrest Hk). by rewrite lookup_insert_ne.
Qed.

Lemma writeFrontals_frame fs : forall v gy k,
  k ∉ fs.*1 -> writeFrontals fs v gy !! k = gy !! k.
Proof.
  induction fs as [|[f n] fs IH]; intros v gy k; [done|].
  rewrite fmap_cons. simpl. intros [Hne Hk]%not_elem_of_cons.
  rewrite IH by done. by rewrite lookup_insert_ne.
Qed.

(** One in-place step touches only the frontal and the parent keys of its
    conditional. *)
Lemma solveTransposeInPlace_frame cg gy gy' k :
  solveTransposeInPlace cg gy = Ok gy' ->
  k ∉ frontalKeys cg -> k ∉ parentKeys cg -> gy' !! k = gy !! k.
Proof.
  unfold solveTransposeInPlace.
  intros (b & _ & (gy1 & Hup & [= <-])%bind_Ok)%bind_Ok Hf Hp.
  rewrite writeFrontals_frame by done. by eapply updateParents_frame.
Qed.

Lemma backSubstituteTranspose_frame bn : forall gx gy k,
  backSubstituteTranspose bn gx = Ok gy ->
  k ∉ networkFrontalKeys bn -> k ∉ networkParentKeys bn ->
  gy !! k = gx !! k.
Proof.
  unfold backSubstituteTranspose.
  induction bn as [|cg bn IH]; intros gx gy k.
  - by intros [= <-].
  - rewrite networkFrontalKeys_cons, networkParentKeys_cons. simpl.
    intros (gy1 & Hstep & Hrest)%bind_Ok
           [Hf Hfs]%not_elem_of_app [Hp Hps]%not_elem_of_app.
    rewrite (IH _ _ _ Hrest Hfs Hps).
    by eapply solveTransposeInPlace_frame.
Qed.
End TransposeSolve.

Section ChainTranspose.
Import Chain.

(** The transpose solve on conditional A alone: the frontal block becomes
    [a / 2] and the correction [S' * (a / 2)] is taken from the parent
    block. *)
Lemma backSubstituteTranspose_condA (gx : gmap N (list R)) a b :
  gx !! x1 = Some [a] -> gx !! x2 = Some [b] ->
  backSubstituteTranspose [condA] gx
  = Ok (<[x1 := [(a / 2)%R]]> (<[x2 := [(b - a / 2)%R]]> gx)).
Proof.
  intros Ha Hb. unfold backSubstituteTranspose. simpl.
  unfold solveTransposeInPlace. simpl. unfold lookupKey. rewrite Ha. simpl.
  rewrite Hb. simpl. do 4 f_equal. lra.
Qed.
Example backSubstituteTranspose_condA_example :
  backSubstituteTranspose [condA] (<[x1 := [2%R]]> {[x2 := [5%R]]})
  = Ok (<[x1 := [1%R]]> (<[x2 := [4%R]]> (<[x1 := [2%R]]> {[x2 := [5%R]]}))).
Proof.
  rewrite (backSubstituteTranspose_condA _ 2%R 5%R).
  - do 3 f_equal; [f_equal; lra|]. do 2 f_equal. lra.
  - apply lookup_insert_eq.
  - rewrite lookup_insert_ne by done. apply lookup_singleton_eq.
Qed.
End ChainTranspose.

(** C4, as the specification states it: every key of the input that is
    frontal of no conditional keeps its input value.  It fails on a key
    that is a parent of a conditional: the transpose solve propagates a
    correction into each parent block. *)
Lemma backSubstituteTranspose_parent_not_passed :
  ~ (forall bn (gx gy : gmap N (list R)) k v,
       backSubstituteTranspose bn gx = Ok gy ->
       gx !! k = Some v -> k ∉ networkFrontalKeys bn ->
       gy !! k = Some v).
Proof.
  intros Hclaim.
  pose (gx := <[Chain.x1 := [2%R]]> ({[Chain.x2 := [5%R]]} : gmap N (list R))).
  assert (gx !! Chain.x1 = Some [2%R]) as H1 by apply lookup_insert_eq.
  assert (gx !! Chain.x2 = Some [5%R]) as H2.
  { unfold gx. rewrite lookup_insert_ne by done. apply lookup_singleton_eq. }
  specialize (Hclaim [Chain.condA] gx _ Chain.x2 [5%R]
                (backSubstituteTranspose_condA gx 2%R 5%R H1 H2) H2).
  rewrite lookup_insert_ne, lookup_insert_eq in Hclaim by done.
  assert (Chain.x2 ∉ networkFrontalKeys [Chain.condA]) as Hnot.
  { simpl. intros Hin. apply list_elem_of_singleton in Hin. done. }
  specialize (Hclaim Hnot). injection Hclaim as Heq. lra.
Qed.

(** C4, amended: every key that is neither a frontal nor a parent key of
    any conditional has in the output of [backSubstituteTranspose] the
    entry it has in the input: a value of the input passes through
    unchanged and is not reset to zero. *)
Theorem backSubstituteTranspose_passthrough bn (gx gy : gmap N (list R)) k :
  backSubstituteTranspose bn gx = Ok gy ->
  k ∉ networkFrontalKeys bn -> k ∉ networkParentKeys bn ->
  gy !! k = gx !! k.
Proof. apply backSubstituteTranspose_frame. Qed.

Lemma backSubstituteTranspose_passthrough_witness :
  (<[Chain.x1 := [1%R]]>
     (<[Chain.x2 := [4%R]]>
        (<[Chain.x1 := [2%R]]>
           (<[Chain.x2 := [5%R]]> ({[7%N := [9%R]]} : gmap N (list R))))))
    !! 7%N
  = (<[Chain.x1 := [2%R]]> (<[Chain.x2 := [5%R]]> ({[7%N := [9%R]]} : gmap N (list R))))
    !! 7%N.
Proof.
  apply (backSubstituteTranspose_passthrough [Chain.condA]).
  - rewrite (backSubstituteTranspose_condA _ 2%R 5%R).
    + do 3 f_equal; [f_equal; lra|]. do 2 f_equal. lra.
    + apply lookup_insert_eq.
    + rewrite lookup_insert_ne by done. apply lookup_insert_eq.
  - simpl. intros Hin. apply list_elem_of_singleton in Hin. done.
  - simpl. intros Hin. apply list_elem_of_singleton in Hin. done.
Defined.

(** ** The delegation bridge *)

Lemma GaussianFactorGraph_sameData bn :
  Forall2 sameData bn (GaussianFactorGraph bn).
Proof.
  unfold GaussianFactorGraph.
  induction bn as [|cg bn IH]; simpl; constructor; [|exact IH].
  by repeat split.
Qed.

(** C7: [gradient(x0)], [gradientAtZero()], [error(x)] and [matrix()] are
    the gradient, gradientAtZero, error and jacobian queries of the factor
    graph rebuilt from the conditionals in their order, one factor per
    conditional with the same R/S/d/noise-model data. *)
Theorem bridge_delegates `{Q : FactorGraphQueries}
    (bn : list GaussianConditional) (x0 x : gmap N (list R)) :
  gradient bn x0 = fg_gradient (GaussianFactorGraph bn) x0
  /\ gradientAtZero bn = fg_gradientAtZero (GaussianFactorGraph bn)
  /\ error bn x = fg_error (GaussianFactorGraph bn) x
  /\ matrix bn = fg_jacobian (GaussianFactorGraph bn)
  /\ Forall2 sameData bn (GaussianFactorGraph bn).
Proof.
  repeat split; try reflexivity. apply GaussianFactorGraph_sameData.
Qed.

(** * Further properties of the network operations *)

(** ** How the loops compose *)

(** X1: solving a concatenated network is solving its later part first and
    then its earlier part with that solution as the supplied assignment; a
    failure of the later part is the failure of the whole. *)
Theorem optimize_app (bn1 bn2 : list GaussianConditional)
    (s : gmap N (list R)) :
  optimize (bn1 ++ bn2) s = optimize bn2 s ≫= optimize bn1.
Proof. unfold optimize. by rewrite rev_app_distr, forEach_app. Qed.

(** X2: the transpose back-substitution of a concatenated network runs the
    earlier part first and feeds its output to the later part, the
    opposite direction of [optimize]. *)
Theorem backSubstituteTranspose_app (bn1 bn2 : list GaussianConditional)
    (gx : gmap N (list R)) :
  backSubstituteTranspose (bn1 ++ bn2) gx
  = backSubstituteTranspose bn1 gx ≫= backSubstituteTranspose bn2.
Proof. unfold backSubstituteTranspose. apply forEach_app. Qed.

(** ** The solution of the solve engine *)

Section SolutionFacts.
Implicit Types (bn : list GaussianConditional) (cg : GaussianConditional).
Implicit Types (s t soln x r acc : gmap N (list R)).

(** The blocks a solved vector is cut into are the blocks read back. *)
Lemma frontalSegments_least fs : forall v acc r x,
  frontalVector fs x = Ok v -> frontalSegments fs v acc = Ok r ->
  acc ⊆ x -> r ⊆ x.
Proof.
  induction fs as [|[k n] fs IH]; intros v acc r x; simpl.
  - by intros _ [= <-].
  - intros (w & Hw%lookupKey_Ok & Hrest)%bind_Ok.
    case_decide as Hlen; [|done].
    apply bind_Ok in Hrest as (vs & Hvs & [= <-]).
    intros (acc' & [_ ->]%insertKey_Ok & Hseg)%bind_Ok Hacc.
    rewrite take_app_length' in Hseg by done.
    rewrite drop_app_length' in Hseg by done.
    eapply IH; [exact Hvs|exact Hseg|]. by apply insert_subseteq_l.
Qed.

Lemma optimize_least bn : forall s x x',
  optimize bn s = Ok x -> s ⊆ x' ->
  Forall (fun cg => conditionalHolds cg x') bn -> x ⊆ x'.
Proof.
  induction bn as [|cg rest IH]; intros s x x'.
  - by intros [= <-].
  - rewrite optimize_cons.
    intros (soln & Hrest & (r & Hr & _ & ->)%optimizeStep_Ok)%bind_Ok Hs
           [Hcg Hholds]%Forall_cons.
    specialize (IH _ _ _ Hrest Hs Hholds).
    apply map_union_least; [done|].
    destruct Hcg as (xf & xps' & rhs & Hxf & Hxps' & Hrhs & -> & _).
    unfold solve in Hr.
    apply bind_Ok in Hr as (xps & Hxps & (y & Hy & Hseg)%bind_Ok).
    rewrite (parentValues_mono _ _ _ _ IH Hxps) in Hxps'.
    injection Hxps' as <-. rewrite Hy in Hrhs. injection Hrhs as <-.
    eapply frontalSegments_least; [exact Hxf|exact Hseg|].
    apply map_empty_subseteq.
Qed.

(** Values supplied under keys that a conditional does not mention do not
    change its solution. *)
Lemma parentValues_frame ps : forall x t,
  (forall k, k ∈ ps.*1 -> t !! k = None) ->
  parentValues ps (x ∪ t) = parentValues ps x.
Proof.
  induction ps as [|[k Sj] ps IH]; intros x t Ht; [done|].
  rewrite fmap_cons in Ht. simpl. unfold lookupKey.
  rewrite lookup_union_l by (apply Ht; set_solver).
  rewrite IH; [done|]. intros k' Hk'. apply Ht. set_solver.
Qed.

Lemma optimizeStep_frame soln t cg :
  (forall k, k ∈ dom t -> (k ∉ frontalKeys cg) /\ (k ∉ parentKeys cg)) ->
  optimizeStep (soln ∪ t) cg
  = (optimizeStep soln cg ≫= fun x => Ok (x ∪ t)).
Proof.
  intros Ht. unfold optimizeStep.
  assert (solve cg (soln ∪ t) = solve cg soln) as ->.
  { unfold solve. rewrite parentValues_frame; [done|].
    intros k Hk. apply not_elem_of_dom. intros Hkt.
    by destruct (Ht k Hkt) as [_ Hp]. }
  destruct (solve cg soln) as [r|e] eqn:Hr; simpl; [|done].
  destruct (solve_Ok_dom _ _ _ Hr) as [Hdomr _].
  assert (dom t ## dom r) as Htr.
  { rewrite Hdomr. intros k Hkt Hkr. apply elem_of_list_to_set in Hkr.
    by destruct (Ht k Hkt) as [Hf _]. }
  unfold insertValues.
  destruct (gset_disjoint_dec (dom soln) (dom r)) as [Hd|Hd].
  - destruct (gset_disjoint_dec (dom (soln ∪ t)) (dom r)) as [Hd'|Hd']; simpl.
    + f_equal. rewrite <- !(assoc_L (∪)). f_equal.
      apply map_union_comm. by apply map_disjoint_dom.
    + exfalso. apply Hd'. rewrite dom_union_L. set_solver.
  - destruct (gset_disjoint_dec (dom (soln ∪ t)) (dom r)) as [Hd'|Hd']; simpl.
    + exfalso. apply Hd. rewrite dom_union_L in Hd'. set_solver.
    + done.
Qed.

Lemma optimize_unmentioned_carried bn : forall s t,
  (forall k, k ∈ dom t -> ~ mentioned bn k) ->
  optimize bn (s ∪ t) = (optimize bn s ≫= fun x => Ok (x ∪ t)).
Proof.
  induction bn as [|cg rest IH]; intros s t Ht; [done|].
  rewrite !optimize_cons, IH.
  - destruct (optimize rest s) as [soln|e]; simpl; [|done].
    apply optimizeStep_frame. intros k Hk. specialize (Ht k Hk).
    unfold mentioned in Ht. rewrite networkFrontalKeys_cons in Ht.
    rewrite networkParentKeys_cons in Ht. set_solver.
  - intros k Hk [Hf|Hp]; apply (Ht k Hk); unfold mentioned.
    + left. rewrite networkFrontalKeys_cons. set_solver.
    + right. rewrite networkParentKeys_cons. set_solver.
Qed.
Lemma frontalVector_length fs : forall (x : gmap N (list R)) v,
  frontalVector fs x = Ok v -> length v = sum_list fs.*2.
Proof.
  induction fs as [|[k n] fs IH]; intros x v.
  - by intros [= <-].
  - simpl frontalVector. intros (w & _ & Hrest)%bind_Ok.
    case_decide as Hlen; [|done].
    apply bind_Ok in Hrest as (vs & Hvs & [= <-]).
    rewrite length_app, (IH _ _ Hvs), Hlen. reflexivity.
Qed.

(** With a square, upper-triangular block of non-singular diagonal, the
    linear equation has the back-substituted vector as its only
    solution. *)
Lemma satisfiesEquation_holds dim cg x :
  wfConditional dim cg -> satisfiesEquation cg x -> conditionalHolds cg x.
Proof.
  intros [Hfs Hps [HRrows HRcols] Hupper Hdiag Hd]
         (xf & xps & rhs & Hxf & Hxps & Hrhs & Hmul).
  exists xf, xps, rhs. repeat (split; [done|]). split; [|done].
  pose proof (frontalVector_length _ _ _ Hxf) as Hlen.
  fold (frontalDim cg) in Hlen.
  rewrite <- Hmul, <- mulUpper_mulMV.
  - symmetry. apply solveUpper_mulUpper; [done|congruence].
  - done.
  - by rewrite Hlen.
  - congruence.
Qed.

Lemma conditionalHolds_equation cg x :
  conditionalHolds cg x -> satisfiesEquation cg x.
Proof.
  intros (xf & xps & rhs & Hxf & Hxps & Hrhs & _ & Hmul).
  by exists xf, xps, rhs.
Qed.
End SolutionFacts.

(** X7: under the shape invariants, the assignment [optimize] returns
    solves the linear equation [R x_f = y - sum_j S_j x_pj] of every
    conditional and is the least assignment doing so that extends the
    supplied one: it is contained in every such assignment and equals every
    one that has no further keys. *)
Theorem optimize_unique_solution (dim : N -> nat)
    (bn : list GaussianConditional) (s x x' : gmap N (list R)) :
  Forall (wfConditional dim) bn -> dimsAgree dim s ->
  optimize bn s = Ok x -> s ⊆ x' ->
  Forall (fun cg => satisfiesEquation cg x') bn ->
  Forall (fun cg => satisfiesEquation cg x) bn
  /\ x ⊆ x' /\ (dom x' ⊆ dom x -> x' = x).
Proof.
  intros Hwf Hs Hx Hsub Heq.
  destruct (optimize_Ok_holds dim _ _ _ Hwf Hs Hx) as [_ Hholds].
  assert (x ⊆ x') as Hle.
  { eapply optimize_least; [exact Hx|exact Hsub|].
    apply Forall_forall. intros cg Hcg.
    rewrite Forall_forall in Hwf, Heq.
    eapply satisfiesEquation_holds; [by apply Hwf|by apply Heq]. }
  split; [|split; [done|]].
  - eapply Forall_impl; [exact Hholds|]. intros cg. apply conditionalHolds_equation.
  - intros Hdom. symmetry. by apply subseteq_dom_eq.
Qed.

Lemma optimize_unique_solution_witness :
  Forall (fun cg => satisfiesEquation cg
            (<[Chain.x1 := [1%R]]> ({[Chain.x2 := [3%R]]} : gmap N (list R))))
         Chain.chain
  /\ (<[Chain.x1 := [1%R]]> {[Chain.x2 := [3%R]]} : gmap N (list R))
       ⊆ <[7%N := [9%R]]> (<[Chain.x1 := [1%R]]> {[Chain.x2 := [3%R]]})
  /\ (dom (<[7%N := [9%R]]> (<[Chain.x1 := [1%R]]> ({[Chain.x2 := [3%R]]} : gmap N (list R))))
        ⊆ dom (<[Chain.x1 := [1%R]]> ({[Chain.x2 := [3%R]]} : gmap N (list R))) ->
      <[7%N := [9%R]]> (<[Chain.x1 := [1%R]]> {[Chain.x2 := [3%R]]})
      = (<[Chain.x1 := [1%R]]> {[Chain.x2 := [3%R]]} : gmap N (list R))).
Proof.
  apply (optimize_unique_solution (fun _ => 1%nat) Chain.chain ∅).
  - exact chain_wf.
  - apply dimsAgree_empty.
  - exact optimize_chain.
  - apply map_empty_subseteq.
  - destruct (optimize_Ok_holds (fun _ => 1%nat) _ _ _
                chain_wf (dimsAgree_empty _) optimize_chain) as [_ Hholds].
    eapply Forall_impl; [exact Hholds|]. intros cg Hcg.
    apply conditionalHolds_equation.
    eapply conditionalHolds_mono; [|exact Hcg]. apply insert_subseteq.
    rewrite lookup_insert_ne by done. by rewrite lookup_singleton_ne.
Defined.

(** X8: values supplied under keys that the network does not mention,
    neither as frontal nor as parent, are carried into the result and
    change nothing else: the outcome, failures included, is the one
    without them. *)
Theorem optimize_frame (bn : list GaussianConditional)
    (s t : gmap N (list R)) :
  (forall k, k ∈ dom t -> ~ mentioned bn k) ->
  optimize bn (s ∪ t) = (optimize bn s ≫= fun x => Ok (x ∪ t)).
Proof. apply optimize_unmentioned_carried. Qed.

Lemma optimize_frame_witness :
  optimize Chain.chain (∅ ∪ {[7%N := [9%R]]})
  = (optimize Chain.chain ∅ ≫= fun x => Ok (x ∪ {[7%N := [9%R]]})).
Proof.
  apply (optimize_frame Chain.chain ∅ {[7%N := [9%R]]}).
  intros k Hk. rewrite dom_singleton_L in Hk.
  apply elem_of_singleton_1 in Hk. subst k.
  unfold mentioned. simpl. intros [H|H].
  - apply elem_of_cons in H as [H|H]; [done|].
    apply list_elem_of_singleton in H. done.
  - apply list_elem_of_singleton in H. done.
Defined.

(** X9: a returned solution keeps the block lengths: when the conditionals
    keep their shape invariants and the supplied blocks have their
    variables' lengths, so has every block of the result. *)
Theorem optimize_block_lengths (dim : N -> nat)
    (bn : list GaussianConditional) (s x : gmap N (list R)) :
  Forall (wfConditional dim) bn -> dimsAgree dim s ->
  optimize bn s = Ok x -> dimsAgree dim x.
Proof.
  intros Hwf Hs Hx. by destruct (optimize_Ok_holds dim _ _ _ Hwf Hs Hx).
Qed.

Lemma optimize_block_lengths_witness :
  dimsAgree (fun _ => 1%nat)
    (<[Chain.x1 := [1%R]]> ({[Chain.x2 := [3%R]]} : gmap N (list R))).
Proof.
  apply (optimize_block_lengths (fun _ => 1%nat) Chain.chain ∅).
  - exact chain_wf.
  - apply dimsAgree_empty.
  - exact optimize_chain.
Defined.

(** ** What general back-substitution needs *)

Section BackSubstituteFacts.
Implicit Types (bn : list GaussianConditional) (cg : GaussianConditional).
Implicit Types (rhs acc res r : gmap N (list R)).

Lemma backSubstitute_cons cg rest rhs :
  backSubstitute (cg :: rest) rhs
  = (backSubstitute rest rhs ≫= fun res => backSubstituteStep rhs res cg).
Proof. unfold backSubstitute. simpl rev. apply forEach_snoc. Qed.

Lemma backSubstitute_Ok_dom bn rhs res :
  backSubstitute bn rhs = Ok res ->
  dom res = list_to_set (networkFrontalKeys bn).
Proof.
  intros Hres. unfold backSubstitute in Hres.
  apply backSubstitute_loop_dom in Hres.
  by rewrite dom_empty_L, (left_id_L ∅ (∪)), networkFrontalKeys_rev in Hres.
Qed.

Lemma frontalVector_Ok_dom fs : forall rhs b k,
  frontalVector fs rhs = Ok b -> k ∈ fs.*1 -> k ∈ dom rhs.
Proof.
  induction fs as [|[f n] fs IH]; intros rhs b k.
  - intros _ Hk. by apply elem_of_nil in Hk.
  - rewrite fmap_cons. simpl.
    intros (w & Hw%lookupKey_Ok & Hrest)%bind_Ok [->|Hk]%elem_of_cons.
    + by eapply elem_of_dom_2.
    + case_decide; [|done].
      apply bind_Ok in Hrest as (vs & Hvs & _). by eapply IH.
Qed.

Lemma parentValues_Ok_dom ps : forall (x : gmap N (list R)) xps k,
  parentValues ps x = Ok xps -> k ∈ ps.*1 -> k ∈ dom x.
Proof.
  intros x xps k Hxps Hk. apply parentValues_Ok in Hxps.
  apply list_elem_of_fmap in Hk as ([k' Sj] & -> & Hin).
  apply list_elem_of_lookup in Hin as [i Hi].
  destruct (Forall2_lookup_l _ _ _ _ _ Hxps Hi) as (v & _ & Hv).
  by eapply elem_of_dom_2.
Qed.

Lemma backSubstitute_Ok_necessary bn : forall rhs res,
  backSubstitute bn rhs = Ok res ->
  NoDup (networkFrontalKeys bn)
  /\ resolvable bn ∅
  /\ (forall k, k ∈ networkFrontalKeys bn -> k ∈ dom rhs).
Proof.
  induction bn as [|cg rest IH]; intros rhs res.
  - intros _. split; [constructor|]. split; [done|].
    intros k Hk. by apply elem_of_nil in Hk.
  - rewrite backSubstitute_cons.
    intros (acc & Hacc & (r & Hr & Hdisj & ->)%backSubstituteStep_Ok)%bind_Ok.
    destruct (IH _ _ Hacc) as (Hnd & Hres & Hrhs).
    pose proof (backSubstitute_Ok_dom _ _ _ Hacc) as Hdom.
    destruct (solveOtherRHS_Ok_dom _ _ _ _ Hr) as [Hdomr Hndr].
    unfold solveOtherRHS in Hr.
    apply bind_Ok in Hr as (xps & Hxps & (b & Hb & _)%bind_Ok).
    rewrite networkFrontalKeys_cons. split; [|split].
    + apply NoDup_app. split; [done|]. split; [|done].
      intros k Hk Hk'. apply (Hdisj k).
      * rewrite Hdom. by apply elem_of_list_to_set.
      * rewrite Hdomr. by apply elem_of_list_to_set.
    + split; [|done]. apply Forall_forall. intros p Hp. right.
      pose proof (parentValues_Ok_dom _ _ _ _ Hxps Hp) as Hin.
      rewrite Hdom in Hin. by apply elem_of_list_to_set in Hin.
    + intros k [Hk|Hk]%elem_of_app; [|by apply Hrhs].
      by eapply frontalVector_Ok_dom.
Qed.
End BackSubstituteFacts.

(** X11: [backSubstitute(rhs)] returns an assignment only if the frontal
    keys of the network are pairwise distinct, each of them has an entry in
    [rhs], and every parent key is a frontal key of a later-positioned
    conditional: the entries of [rhs] never stand in for parent values. *)
Theorem backSubstitute_returns_only_if (bn : list GaussianConditional)
    (rhs result : gmap N (list R)) :
  backSubstitute bn rhs = Ok result ->
  NoDup (networkFrontalKeys bn)
  /\ resolvable bn ∅
  /\ (forall k, k ∈ networkFrontalKeys bn -> k ∈ dom rhs).
Proof. apply backSubstitute_Ok_necessary. Qed.

Lemma backSubstitute_returns_only_if_witness :
  NoDup (networkFrontalKeys Chain.chain)
  /\ resolvable Chain.chain ∅
  /\ (forall k, k ∈ networkFrontalKeys Chain.chain ->
        k ∈ dom (<[Chain.x1 := [5%R]]> ({[Chain.x2 := [3%R]]} : gmap N (list R)))).
Proof.
  apply (backSubstitute_returns_only_if Chain.chain
           (<[Chain.x1 := [5%R]]> {[Chain.x2 := [3%R]]})
           (<[Chain.x1 := [((5 - 3) / 2)%R]]> {[Chain.x2 := [3%R]]})).
  apply backSubstitute_chain.
  - apply lookup_insert_eq.
  - rewrite lookup_insert_ne by done. apply lookup_singleton_eq.
Defined.

(** ** What the transpose back-substitution needs and keeps *)

Section TransposeFacts.
Implicit Types (bn : list GaussianConditional) (cg : GaussianConditional).
Implicit Types (gx gy : gmap N (list R)).
Local Open Scope R_scope.

Lemma length_vadd u v : length (vadd u v) = Nat.min (length u) (length v).
Proof.
  revert v; induction u as [|a u IH]; intros [|b v]; simpl; auto.
Qed.

Lemma length_vmul u v : length (vmul u v) = Nat.min (length u) (length v).
Proof.
  revert v; induction u as [|a u IH]; intros [|b v]; simpl; auto.
Qed.

Lemma length_mulTV n M z :
  Forall (fun row => length row = n) M -> length (mulTV n M z) = n.
Proof.
  intros HM. revert z.
  induction HM as [|row M Hrow _ IH]; intros [|zi z]; simpl;
    try (by rewrite length_replicate).
  rewrite length_vadd, length_scale, IH. lia.
Qed.

Lemma length_solveUpperTransposeFrom i M : forall b,
  Forall (fun row => length row = (i + length M)%nat) M ->
  length M = length b ->
  length (solveUpperTransposeFrom i M b) = length b.
Proof.
  revert i; induction M as [|row M IH]; intros i [|bi b] Hrows Hlen;
    simpl in *; try done.
  inversion Hrows as [|? ? Hrow Hrows']; subst.
  rewrite IH.
  - rewrite length_vsub, length_scale, length_drop. lia.
  - eapply Forall_impl; [exact Hrows'|]. simpl. intros; lia.
  - rewrite length_vsub, length_scale, length_drop. lia.
Qed.

Lemma updateParents_Ok_dom ps z : forall gy gy',
  updateParents ps z gy = Ok gy' ->
  dom gy' = dom gy /\ (forall k, k ∈ ps.*1 -> k ∈ dom gy).
Proof.
  induction ps as [|[p Sj] ps IH]; intros gy gy'.
  - intros [= <-]. split; [done|]. intros k Hk. by apply elem_of_nil in Hk.
  - rewrite fmap_cons. simpl.
    intros (v & Hv%lookupKey_Ok & Hrest)%bind_Ok.
    case_decide; [|done].
    destruct (IH _ _ Hrest) as [Hdom Hin].
    rewrite dom_insert_lookup_L in Hdom, Hin by done.
    split; [done|]. intros k [->|Hk]%elem_of_cons; [|by apply Hin].
    by eapply elem_of_dom_2.
Qed.

Lemma writeFrontals_dom fs : forall v gy,
  dom (writeFrontals fs v gy) = dom gy ∪ list_to_set fs.*1.
Proof.
  induction fs as [|[f n] fs IH]; intros v gy.
  - simpl. set_solver.
  - rewrite fmap_cons. simpl. rewrite IH, dom_insert_L. set_solver.
Qed.

Lemma solveTransposeInPlace_Ok_dom cg gy gy' :
  solveTransposeInPlace cg gy = Ok gy' ->
  dom gy' = dom gy
  /\ (forall k, k ∈ frontalKeys cg \/ k ∈ parentKeys cg -> k ∈ dom gy).
Proof.
  unfold solveTransposeInPlace.
  intros (b & Hb & (gy1 & Hup & [= <-])%bind_Ok)%bind_Ok.
  destruct (updateParents_Ok_dom _ _ _ _ Hup) as [Hdom Hps].
  assert (forall k, k ∈ frontalKeys cg -> k ∈ dom gy) as Hfs.
  { intros k Hk. by eapply frontalVector_Ok_dom. }
  split.
  - rewrite writeFrontals_dom, Hdom.
    apply set_eq. intros k. rewrite elem_of_union, elem_of_list_to_set.
    split; [intros [?|?]; auto|auto].
  - intros k [Hk|Hk]; auto.
Qed.

Lemma backSubstituteTranspose_Ok_dom bn : forall gx gy,
  backSubstituteTranspose bn gx = Ok gy ->
  dom gy = dom gx /\ (forall k, mentioned bn k -> k ∈ dom gx).
Proof.
  unfold backSubstituteTranspose, mentioned.
  induction bn as [|cg bn IH]; intros gx gy.
  - intros [= <-]. split; [done|].
    intros k [Hk|Hk]; by apply elem_of_nil in Hk.
  - rewrite networkFrontalKeys_cons, networkParentKeys_cons. simpl.
    intros (gy1 & Hstep & Hrest)%bind_Ok.
    destruct (solveTransposeInPlace_Ok_dom _ _ _ Hstep) as [Hdom1 Hin1].
    destruct (IH _ _ Hrest) as [Hdom Hin].
    split; [congruence|].
    intros k [[Hk|Hk]%elem_of_app|[Hk|Hk]%elem_of_app]; auto;
      rewrite <- Hdom1; auto.
Qed.

Lemma frontalVector_succeeds dim fs gy :
  Forall (fun kn => dim kn.1 = kn.2) fs -> dimsAgree dim gy ->
  (forall k, k ∈ fs.*1 -> k ∈ dom gy) ->
  exists b, frontalVector fs gy = Ok b /\ length b = sum_list fs.*2.
Proof.
  intros Hfs Hgy. induction Hfs as [|[k n] fs Hk _ IH]; intros Hin.
  - by exists [].
  - rewrite fmap_cons in Hin. simpl in Hk.
    destruct IH as (vs & Hvs & Hlen); [intros k' Hk'; apply Hin; set_solver|].
    assert (k ∈ dom gy) as [w Hw]%elem_of_dom by (apply Hin; set_solver).
    pose proof (Hgy _ _ Hw) as Hwlen.
    exists (w ++ vs). split.
    + simpl. unfold lookupKey. rewrite Hw. simpl.
      rewrite decide_True by congruence. by rewrite Hvs.
    + rewrite length_app.
      change (sum_list ((k, n) :: fs).*2) with (n + sum_list fs.*2)%nat.
      clear -Hwlen Hk Hlen. lia.
Qed.

Lemma updateParents_succeeds dim z ps : forall gy,
  Forall (fun kS => hasCols (dim kS.1) kS.2) ps -> dimsAgree dim gy ->
  (forall k, k ∈ ps.*1 -> k ∈ dom gy) ->
  exists gy', updateParents ps z gy = Ok gy' /\ dimsAgree dim gy'.
Proof.
  induction ps as [|[p Sj] ps IH]; intros gy Hps Hgy Hin.
  - by exists gy.
  - rewrite fmap_cons in Hin.
    apply Forall_cons in Hps as [Hcols Hps]. simpl in Hcols.
    assert (p ∈ dom gy) as [v Hv]%elem_of_dom by (apply Hin; set_solver).
    pose proof (Hgy _ _ Hv) as Hvlen.
    simpl. unfold lookupKey. rewrite Hv. simpl.
    rewrite decide_True by (by rewrite Hvlen).
    apply IH; [done| |].
    + intros k w. destruct (decide (k = p)) as [->|Hne].
      * rewrite lookup_insert_eq. intros [= <-].
        rewrite length_vsub, length_mulTV by (by rewrite Hvlen). lia.
      * rewrite lookup_insert_ne by done. apply Hgy.
    + intros k Hk. rewrite dom_insert_L. apply elem_of_union_r.
      apply Hin. set_solver.
Qed.

Lemma writeFrontals_dims dim fs : forall v gy,
  length v = sum_list fs.*2 ->
  Forall (fun kn => dim kn.1 = kn.2) fs ->
  dimsAgree dim gy -> dimsAgree dim (writeFrontals fs v gy).
Proof.
  induction fs as [|[k n] fs IH]; intros v gy Hlen Hfs Hgy; [done|].
  change (length v = (n + sum_list fs.*2)%nat) in Hlen.
  apply Forall_cons in Hfs as [Hk Hfs]. simpl in Hk. simpl.
  apply IH; [rewrite length_drop; clear -Hlen; lia|done|].
  intros k' w. destruct (decide (k' = k)) as [->|Hne].
  - rewrite lookup_insert_eq. intros [= <-]. rewrite length_take.
    clear -Hlen Hk. lia.
  - rewrite lookup_insert_ne by done. apply Hgy.
Qed.

Lemma solveTransposeInPlace_succeeds dim cg gy :
  wfConditional dim cg -> wfModel cg -> dimsAgree dim gy ->
  (forall k, k ∈ frontalKeys cg \/ k ∈ parentKeys cg -> k ∈ dom gy) ->
  exists gy', solveTransposeInPlace cg gy = Ok gy' /\ dimsAgree dim gy'.
Proof.
  intros [Hfs Hps [HRrows HRcols] Hupper Hdiag Hd] Hmodel Hgy Hin.
  destruct (frontalVector_succeeds dim (frontals cg) gy Hfs Hgy)
    as (b & Hb & Hblen); [by auto|].
  destruct (updateParents_succeeds dim
              (solveUpperTranspose (get_R cg) b) (parents cg) gy)
    as (gy1 & Hup & Hgy1); [|done|by auto|].
  { eapply Forall_impl; [exact Hps|]. by intros kS [_ ?]. }
  assert (length (solveUpperTranspose (get_R cg) b) = frontalDim cg) as Hz.
  { unfold solveUpperTranspose. rewrite length_solveUpperTransposeFrom.
    - done.
    - simpl. by rewrite HRrows.
    - by rewrite HRrows. }
  eexists. split.
  - unfold solveTransposeInPlace. rewrite Hb. simpl. rewrite Hup. simpl. done.
  - apply writeFrontals_dims; [|done|done].
    unfold wfModel in Hmodel. destruct (get_model cg) as [model|]; [|done].
    rewrite length_vmul, Hz, Hmodel. unfold frontalDim. lia.
Qed.

Lemma backSubstituteTranspose_total_on_shapes dim bn : forall gx,
  Forall (wfConditional dim) bn -> Forall wfModel bn -> dimsAgree dim gx ->
  (forall k, mentioned bn k -> k ∈ dom gx) ->
  exists gy, backSubstituteTranspose bn gx = Ok gy /\ dimsAgree dim gy.
Proof.
  unfold backSubstituteTranspose, mentioned.
  induction bn as [|cg bn IH]; intros gx Hwf Hmodel Hgx Hin.
  - by exists gx.
  - apply Forall_cons in Hwf as [Hcg Hwf].
    apply Forall_cons in Hmodel as [Hm Hmodel].
    rewrite networkFrontalKeys_cons, networkParentKeys_cons in Hin.
    destruct (solveTransposeInPlace_succeeds dim cg gx Hcg Hm Hgx)
      as (gy1 & Hstep & Hgy1).
    { intros k [Hk|Hk]; apply Hin; [left|right]; set_solver. }
    destruct (solveTransposeInPlace_Ok_dom _ _ _ Hstep) as [Hdom1 _].
    destruct (IH gy1 Hwf Hmodel Hgy1) as (gy & Hgy & Hdims).
    { intros k [Hk|Hk]; rewrite Hdom1; apply Hin; [left|right]; set_solver. }
    exists gy. simpl. rewrite Hstep. simpl. done.
Qed.
End TransposeFacts.

(** X13: when the conditionals keep their shape invariants, each noise
    model has one scale per row, the blocks of [gx] have their variables'
    lengths and every key the network mentions has an entry in [gx],
    [backSubstituteTranspose(gx)] returns an assignment, over the keys of
    [gx] and with the same block lengths. *)
Theorem backSubstituteTranspose_succeeds (dim : N -> nat)
    (bn : list GaussianConditional) (gx : gmap N (list R)) :
  Forall (wfConditional dim) bn -> Forall wfModel bn -> dimsAgree dim gx ->
  (forall k, mentioned bn k -> k ∈ dom gx) ->
  exists gy, backSubstituteTranspose bn gx = Ok gy
    /\ dom gy = dom gx /\ dimsAgree dim gy.
Proof.
  intros Hwf Hmodel Hgx Hin.
  destruct (backSubstituteTranspose_total_on_shapes dim bn gx Hwf Hmodel Hgx Hin)
    as (gy & Hgy & Hdims).
  exists gy. split; [done|]. split; [|done].
  by destruct (backSubstituteTranspose_Ok_dom _ _ _ Hgy).
Qed.

Lemma backSubstituteTranspose_succeeds_witness :
  exists gy,
    backSubstituteTranspose Chain.chain
      (<[Chain.x1 := [2%R]]> {[Chain.x2 := [5%R]]}) = Ok gy
    /\ dom gy = dom (<[Chain.x1 := [2%R]]> ({[Chain.x2 := [5%R]]} : gmap N (list R)))
    /\ dimsAgree (fun _ => 1%nat) gy.
Proof.
  apply (backSubstituteTranspose_succeeds (fun _ => 1%nat) Chain.chain).
  - exact chain_wf.
  - constructor; [exact I|]. constructor; [exact I|]. constructor.
  - intros k v. destruct (decide (k = Chain.x1)) as [->|Hne].
    + rewrite lookup_insert_eq. by intros [= <-].
    + rewrite lookup_insert_ne by done.
      by intros [<- <-]%lookup_singleton_Some.
  - intros k Hk. rewrite dom_insert_L, dom_singleton_L.
    unfold mentioned in Hk. simpl in Hk.
    destruct Hk as [Hk|Hk].
    + apply elem_of_cons in Hk as [->|Hk]; [set_solver|].
      apply list_elem_of_singleton in Hk as ->. set_solver.
    + apply list_elem_of_singleton in Hk as ->. set_solver.
Defined.
